(** * The Sinkhorn loss of [generative_models_w_Sinkhorn_div.ipynb]

    The notebook defines one numerical routine,

<<
    def sinkhorn_loss(X, Y, epsilon=.5, L=10):
        X_new = tf.expand_dims(X, 1)
        Y_new = tf.expand_dims(Y, 0)
        diff = X_new - Y_new
        c = tf.reduce_sum(diff**2, reduction_indices=-1)
        K = tf.exp(-c/epsilon)
        a = tf.ones((tf.shape(Y)[0], 1))
        b = tf.ones((tf.shape(Y)[0], 1))
        for l in range(L):
            a = 1./(tf.matmul(K, b) + 1e-12)
            b = 1./(tf.matmul(tf.transpose(K), a) + 1e-12)
        return tf.matmul(tf.transpose(tf.matmul(tf.mul(K, c), b)), a)
>>

    and one composite objective built from it.  This file embeds the tensor
    operations the routine uses, the routine itself and the objective, and
    proves what the specification says about them.

    Tensors are nested lists: a matrix is the list of its rows.  The tensor
    operations are written once, over an interface of scalar operations, the
    way the TensorFlow operations are written once for every dtype.  The
    interface has two instances here: the real numbers (exact arithmetic, the
    setting of the algebraic statements) and IEEE binary32 (the dtype of
    [tf.placeholder("float", ...)]), the latter for the operations that IEEE
    754 fixes bit for bit (addition, subtraction, multiplication, division);
    [tf.exp] has no such instance.  Statements about shapes, the loop and the
    order of the operations hold for every dtype; statements about values
    are proved for the reals, so rounding, underflow and the order in which
    a reduction adds its terms are outside them.  An operation that
    TensorFlow rejects with a shape error returns [None].  A nested list
    with no rows carries no column count: the embedding is meant for
    tensors with at least one row, as the routine's callers pass. *)

From Stdlib Require Import List Arith Lia ZArith Reals Lra.
From Stdlib Require Import Permutation Sorted.
From Stdlib Require Import Floats.SpecFloat.
Import ListNotations.

(** ** The option monad of shape errors *)

Definition bind {A B : Type} (x : option A) (f : A -> option B) : option B :=
  match x with
  | Some a => f a
  | None => None
  end.

Notation "x <- e ;; k" := (bind e (fun x => k))
  (at level 61, e at next level, right associativity).
Notation "' p <- e ;; k" := (bind e (fun p => k))
  (at level 61, p pattern, e at next level, right associativity).

(** [mapM f xs] applies a fallible [f] to every element, failing as soon as
    one application fails. *)
Fixpoint mapM {A B : Type} (f : A -> option B) (xs : list A) : option (list B) :=
  match xs with
  | [] => Some []
  | x :: xs' => y <- f x ;; ys <- mapM f xs' ;; Some (y :: ys)
  end.

(** [zipM f xs ys] combines two lists of the same length pointwise. *)
Fixpoint zipM {A B C : Type} (f : A -> B -> option C)
         (xs : list A) (ys : list B) : option (list C) :=
  match xs, ys with
  | [], [] => Some []
  | x :: xs', y :: ys' => z <- f x y ;; zs <- zipM f xs' ys' ;; Some (z :: zs)
  | _, _ => None
  end.

(** ** Scalars *)

(** The arithmetic every dtype provides. *)
Class Arith (T : Type) : Type := {
  szero : T;
  sone : T;
  sadd : T -> T -> T;
  ssub : T -> T -> T;
  smul : T -> T -> T;
  sdiv : T -> T -> T;
  sneg : T -> T
}.

(** The floating dtypes add the exponential and the decimal literals the
    notebook writes: [.5], [1e-12] and [2.]. *)
Class Scalar (T : Type) : Type := {
  scalar_arith :: Arith T;
  sexp : T -> T;
  lit_half : T;
  lit_1em12 : T;
  lit_2 : T
}.

(** ** Tensor operations *)

(** Tensors of rank 1, 2 and 3 as nested lists, outermost axis first. *)
Abbreviation vector T := (list T) (only parsing).
Abbreviation matrix T := (list (list T)) (only parsing).
Abbreviation tensor3 T := (list (list (list T))) (only parsing).

Section Tensor.
Context {T : Type}.

Local Abbreviation vector := (vector T).
Local Abbreviation matrix := (matrix T).
Local Abbreviation tensor3 := (tensor3 T).

(** One axis of NumPy-style broadcasting: sizes must agree, or one of them
    is 1 and its single entry is repeated along the axis. *)
Definition broadcast {A B C : Type} (f : A -> B -> option C)
           (xs : list A) (ys : list B) : option (list C) :=
  if length xs =? length ys then zipM f xs ys
  else match xs, ys with
       | [x], _ => mapM (fun y => f x y) ys
       | _, [y] => mapM (fun x => f x y) xs
       | _, _ => None
       end.

(** [tf.expand_dims(X, 1)]: shape (m, d) becomes (m, 1, d). *)
Definition expand_dims_1 (X : matrix) : tensor3 := map (fun r => [r]) X.

(** [tf.expand_dims(Y, 0)]: shape (n, d) becomes (1, n, d). *)
Definition expand_dims_0 (Y : matrix) : tensor3 := [Y].

(** [tf.shape(Y)[0]]. *)
Definition shape_0 (Y : matrix) : nat := length Y.

(** [tf.transpose] of a matrix; the column count is read off the first
    row. *)
Definition tf_transpose (d : T) (M : matrix) : matrix :=
  map (fun j => map (fun r => nth j r d) M) (seq 0 (length (hd [] M))).

Definition map2d (f : T -> T) (M : matrix) : matrix := map (map f) M.
Definition map3d (f : T -> T) (D : tensor3) : tensor3 := map (map2d f) D.

Context `{Arith T}.

(** [X_new - Y_new] on rank-3 tensors, broadcasting on every axis. *)
Definition tf_sub3 (A B : tensor3) : option tensor3 :=
  broadcast (broadcast (broadcast (fun x y => Some (ssub x y)))) A B.

(** [tf.mul] on matrices (elementwise, broadcasting on both axes). *)
Definition tf_mul (A B : matrix) : option matrix :=
  broadcast (broadcast (fun x y => Some (smul x y))) A B.

(** [diff**2], every entry multiplied by itself. *)
Definition tf_square (D : tensor3) : tensor3 := map3d (fun x => smul x x) D.

(** Sum of a vector, accumulated from the left starting at zero. *)
Definition vsum (v : vector) : T := fold_left sadd v szero.

(** [tf.reduce_sum(D, reduction_indices=-1)]: sums out the last axis. *)
Definition reduce_sum_last (D : tensor3) : matrix := map (map vsum) D.

(** [tf.reduce_sum(M)]: sums every entry of a matrix. *)
Definition reduce_sum_all (M : matrix) : T := vsum (map vsum M).

(** [-c]. *)
Definition tf_neg (M : matrix) : matrix := map2d sneg M.

(** [M / s], [M + s], [s / M] and [s * M] with a scalar [s]. *)
Definition tf_div_scalar (M : matrix) (s : T) : matrix :=
  map2d (fun x => sdiv x s) M.
Definition tf_add_scalar (M : matrix) (s : T) : matrix :=
  map2d (fun x => sadd x s) M.
Definition tf_scalar_div (s : T) (M : matrix) : matrix :=
  map2d (fun x => sdiv s x) M.
Definition tf_scalar_mul (s : T) (M : matrix) : matrix :=
  map2d (fun x => smul s x) M.

(** [A - B] on matrices. *)
Definition tf_sub (A B : matrix) : option matrix :=
  broadcast (broadcast (fun x y => Some (ssub x y))) A B.

(** [tf.ones((r, c))]. *)
Definition tf_ones (r c : nat) : matrix := repeat (repeat sone c) r.

(** Inner product of two vectors of the same length. *)
Definition dot (u v : vector) : T :=
  vsum (map (fun p => smul (fst p) (snd p)) (combine u v)).

(** [tf.matmul(A, B)]: every row of [A] must be as long as [B] has rows,
    otherwise the operation is rejected. *)
Definition tf_matmul (A B : matrix) : option matrix :=
  if forallb (fun r => length r =? length B) A
  then Some (map (fun r => map (dot r) (tf_transpose szero B)) A)
  else None.

(** *** The first half of [sinkhorn_loss]: the cost matrix [c] *)

Definition sinkhorn_cost (X Y : matrix) : option matrix :=
  let X_new := expand_dims_1 X in
  let Y_new := expand_dims_0 Y in
  diff <- tf_sub3 X_new Y_new ;;
  Some (reduce_sum_last (tf_square diff)).

End Tensor.


(** ** The routine *)

Section Sinkhorn.
Context {T : Type} `{Scalar T}.

(** [tf.exp] on a matrix. *)
Definition tf_exp (M : matrix T) : matrix T := map2d sexp M.

(** [K = tf.exp(-c/epsilon)]; the unary minus binds tighter than the
    division. *)
Definition sinkhorn_kernel (c : matrix T) (epsilon : T) : matrix T :=
  tf_exp (tf_div_scalar (tf_neg c) epsilon).

(** The two [tf.ones((tf.shape(Y)[0], 1))] lines: the initial [(a, b)]. *)
Definition sinkhorn_init (Y : matrix T) : matrix T * matrix T :=
  (tf_ones (shape_0 Y) 1, tf_ones (shape_0 Y) 1).

(** The body of the [for] loop: [a] is recomputed from the current [b],
    then [b] from the new [a].  The loop variable [l] is not used. *)
Definition sinkhorn_round (K : matrix T) (l : Z) (ab : matrix T * matrix T)
  : option (matrix T * matrix T) :=
  let '(a, b) := ab in
  Kb <- tf_matmul K b ;;
  let a := tf_scalar_div sone (tf_add_scalar Kb lit_1em12) in
  Kta <- tf_matmul (tf_transpose szero K) a ;;
  let b := tf_scalar_div sone (tf_add_scalar Kta lit_1em12) in
  Some (a, b).

(** The [return] expression. *)
Definition sinkhorn_result (K c : matrix T) (ab : matrix T * matrix T)
  : option (matrix T) :=
  let '(a, b) := ab in
  Kc <- tf_mul K c ;;
  Kcb <- tf_matmul Kc b ;;
  tf_matmul (tf_transpose szero Kcb) a.

End Sinkhorn.

(** Python's [range(L)]: empty when [L <= 0]. *)
Definition range (L : Z) : list Z := map Z.of_nat (seq 0 (Z.to_nat L)).

(** [for l in ls: s = body(l, s)], stopping at the first error. *)
Fixpoint for_each {S : Type} (ls : list Z) (body : Z -> S -> option S) (s : S)
  : option S :=
  match ls with
  | [] => Some s
  | l :: ls' => s' <- body l s ;; for_each ls' body s'
  end.

(** A loop body instrumented with a counter of the rounds executed. *)
Definition ticking {S : Type} (body : Z -> S -> option S)
  : Z -> S * nat -> option (S * nat) :=
  fun l sk => s' <- body l (fst sk) ;; Some (s', Datatypes.S (snd sk)).

Section Loss.
Context {T : Type} `{Scalar T}.

(** [sinkhorn_loss] from the line after the two [tf.ones] on, as a
    function of the initial scaling vectors. *)
Definition sinkhorn_from (X Y : matrix T) (epsilon : T) (L : Z)
           (ab0 : matrix T * matrix T) : option (matrix T) :=
  c <- sinkhorn_cost X Y ;;
  let K := sinkhorn_kernel c epsilon in
  ab <- for_each (range L) (sinkhorn_round K) ab0 ;;
  sinkhorn_result K c ab.

Definition sinkhorn_loss (X Y : matrix T) (epsilon : T) (L : Z)
  : option (matrix T) :=
  sinkhorn_from X Y epsilon L (sinkhorn_init Y).

(** The defaults of the signature: [epsilon=.5, L=10]. *)
Definition default_epsilon : T := lit_half.
Definition default_L : Z := 10.

(** A call of [sinkhorn_loss] in which the keyword arguments may be
    omitted. *)
Definition call_sinkhorn_loss (X Y : matrix T)
           (epsilon : option T) (L : option Z) : option (matrix T) :=
  sinkhorn_loss X Y
    (match epsilon with Some e => e | None => default_epsilon end)
    (match L with Some l => l | None => default_L end).

(** The objective of the notebook,
    [tf.reduce_sum(2.*sinkhorn_loss(X, G) - sinkhorn_loss(X, X)
                   - sinkhorn_loss(G, G))],
    with [G] the generator's output. *)
Definition loss (X G : matrix T) : option T :=
  sXG <- call_sinkhorn_loss X G None None ;;
  sXX <- call_sinkhorn_loss X X None None ;;
  sGG <- call_sinkhorn_loss G G None None ;;
  d <- tf_sub (tf_scalar_mul lit_2 sXG) sXX ;;
  d' <- tf_sub d sGG ;;
  Some (reduce_sum_all d').

End Loss.

(** ** The two dtypes *)

Definition R_arith : Arith R := {|
  szero := 0%R;
  sone := 1%R;
  sadd := Rplus;
  ssub := Rminus;
  smul := Rmult;
  sdiv := Rdiv;
  sneg := Ropp
|}.

#[export] Instance R_scalar : Scalar R := {
  scalar_arith := R_arith;
  sexp := exp;
  lit_half := 0.5%R;
  lit_1em12 := 1e-12%R;
  lit_2 := 2%R
}.

(** IEEE 754 binary32: 24 bits of precision, infinities at exponent 128. *)
Module Float32.
Definition prec : Z := 24.
Definition emax : Z := 128.

Definition float32 : Type := spec_float.

#[export] Instance float32_arith : Arith float32 := {
  szero := S754_zero false;
  sone := SFone prec emax;
  sadd := SFadd prec emax;
  ssub := SFsub prec emax;
  smul := SFmul prec emax;
  sdiv := SFdiv prec emax;
  sneg := SFopp
}.

(** The float of value [m * 2^e]. *)
Definition of_Z_pow2 (m e : Z) : float32 := binary_normalize prec emax m e false.

Definition is_finite (x : float32) : bool :=
  match x with
  | S754_zero _ | S754_finite _ _ _ => true
  | S754_infinity _ | S754_nan => false
  end.

(** Every entry is a valid binary32 number that is finite. *)
Definition all_finite (M : matrix float32) : bool :=
  forallb (forallb (fun x => andb (valid_binary prec emax x) (is_finite x))) M.

(** [tf.exp] on binary32.  IEEE 754 does not fix the rounding of the
    exponential, so its value on the arguments where implementations may
    differ is a parameter, [exp_finite].  Fixed are the values every
    implementation rounding to nearest returns: the special values; [+0] for
    an argument at or below -150, where the exact value is below [2^-150],
    half the smallest positive binary32 number; [+infinity] for an argument
    at or above 128, where the exact value is above [2^128]. *)
Definition exp32 (exp_finite : float32 -> float32) (x : float32) : float32 :=
  match x with
  | S754_nan => S754_nan
  | S754_infinity false => S754_infinity false
  | S754_infinity true => S754_zero false
  | S754_zero _ => SFone prec emax
  | S754_finite _ _ _ =>
      if SFleb x (of_Z_pow2 (-150) 0) then S754_zero false
      else if SFleb (of_Z_pow2 128 0) x then S754_infinity false
      else exp_finite x
  end.

(** The literals in binary32: [.5] and [2.] are exact; [1e-12] is
    [9223372 * 2^-63], the binary32 number nearest to it. *)
Definition float32_scalar (exp_finite : float32 -> float32) : Scalar float32 := {|
  scalar_arith := float32_arith;
  sexp := exp32 exp_finite;
  lit_half := of_Z_pow2 1 (-1);
  lit_1em12 := of_Z_pow2 9223372 (-63);
  lit_2 := of_Z_pow2 2 0
|}.

(** [0 <= x] and [0 < x <= 1] on binary32; both are false of a NaN. *)
Definition nonneg (x : float32) : bool := SFleb (S754_zero false) x.

End Float32.


(** ** Shapes and closed forms *)

(** [rect m d M]: [M] is an [m] by [d] matrix. *)
Definition rect {T : Type} (m d : nat) (M : matrix T) : Prop :=
  length M = m /\ Forall (fun r => length r = d) M.

(** A vector as a one-column matrix. *)
Definition col {T : Type} (v : vector T) : matrix T := map (fun x => [x]) v.

(** What the routine computes, written on vectors instead of one-column
    matrices.  The lemmas below show that the routine computes exactly
    these, for every dtype. *)
Section ClosedFormDefinitions.
Context {T : Type} `{Scalar T}.

(** The squared distance the routine computes between two rows. *)
Definition sqdist (x y : vector T) : T :=
  vsum (map (fun p => smul (ssub (fst p) (snd p)) (ssub (fst p) (snd p)))
            (combine x y)).

Definition cost_matrix (X Y : matrix T) : matrix T :=
  map (fun x => map (sqdist x) Y) X.

(** One kernel entry from one cost entry. *)
Definition kernel_entry (epsilon : T) (x : T) : T :=
  sexp (sdiv (sneg x) epsilon).

(** One half-round on vectors: the reciprocals of the floored row sums. *)
Definition scale (K : matrix T) (v : vector T) : vector T :=
  map (fun r => sdiv sone (sadd (dot r v) lit_1em12)) K.

Definition vec_round (K : matrix T) (uv : vector T * vector T)
  : vector T * vector T :=
  let u' := scale K (snd uv) in
  (u', scale (tf_transpose szero K) u').

(** [n] rounds, the first applied to the initial pair. *)
Fixpoint rounds (K : matrix T) (n : nat) (uv : vector T * vector T)
  : vector T * vector T :=
  match n with
  | O => uv
  | S n' => rounds K n' (vec_round K uv)
  end.

(** The value of the [return] expression on vectors. *)
Definition contraction (K c : matrix T) (uv : vector T * vector T) : T :=
  dot (map (fun r => dot r (snd uv))
           (map (fun p => map (fun q => smul (fst q) (snd q))
                              (combine (fst p) (snd p)))
                (combine K c)))
      (fst uv).

End ClosedFormDefinitions.

(** ** The specification's transport cost, in exact arithmetic *)

Module Spec.
Local Open Scope R_scope.

(** [big_sum n f] is the sum of [f i] over [0 <= i < n]. *)
Definition big_sum (n : nat) (f : nat -> R) : R :=
  fold_right Rplus 0 (map f (seq 0 n)).

(** [M[i][j]]. *)
Definition entry (M : matrix R) (i j : nat) : R := nth j (nth i M []) 0.

Section TransportCost.
Variables (A B : matrix R) (epsilon : R).

Let m : nat := length A.
Let n : nat := length B.

(** Step 1: [C[i][j] = ||A[i] - B[j]||^2]. *)
Definition C (i j : nat) : R :=
  big_sum (length (nth i A [])) (fun k => (entry A i k - entry B j k) ^ 2).

(** Step 2: [K[i][j] = exp(-C[i][j] / epsilon)]. *)
Definition K (i j : nat) : R := exp (- C i j / epsilon).

(** The floor of steps 4a and 4b. *)
Definition delta : R := 1e-12.

(** Step 4a: [u[i] = 1 / (sum_j K[i][j] * v[j] + delta)] for every row. *)
Definition update_u (v : vector R) : vector R :=
  map (fun i => 1 / (big_sum n (fun j => K i j * nth j v 0) + delta))
      (seq 0 m).

(** Step 4b: [v[j] = 1 / (sum_i K[i][j] * u[i] + delta)] for every
    column. *)
Definition update_v (u : vector R) : vector R :=
  map (fun j => 1 / (big_sum m (fun i => K i j * nth i u 0) + delta))
      (seq 0 n).

(** Steps 3 and 4: all-ones vectors of lengths [m] and [n], then [L]
    rounds, [u] first from the current [v]. *)
Fixpoint scalings (L : nat) : vector R * vector R :=
  match L with
  | O => (repeat 1 m, repeat 1 n)
  | S L' =>
      let u' := update_u (snd (scalings L')) in
      (u', update_v u')
  end.

(** Step 5: [sum_{i,j} (K[i][j] * C[i][j]) * v[j] * u[i]]. *)
Definition contract (uv : vector R * vector R) : R :=
  big_sum m (fun i =>
    big_sum n (fun j =>
      (K i j * C i j) * nth j (snd uv) 0 * nth i (fst uv) 0)).

Definition transport_cost (L : nat) : R := contract (scalings L).
End TransportCost.
End Spec.

(** The interval in which the reciprocals of floored sums lie. *)
Definition in_range (x : R) : Prop := (0 < x <= 1 / Spec.delta)%R.

(** ** The rest of the notebook *)

(** *** Random draws

    NumPy and TensorFlow draw from a generator whose state the notebook never
    names.  A computation that draws is a function of that state, returning
    the value and the next state, or nothing when an exception is raised.
    The generator and its draws are not code of the notebook: they are
    parameters of the definitions that use them. *)

Definition rand (G A : Type) : Type := G -> option (A * G).

Definition rret {G A : Type} (x : A) : rand G A := fun g => Some (x, g).

Definition rbind {G A B : Type} (c : rand G A) (k : A -> rand G B) : rand G B :=
  fun g => match c g with
           | Some (x, g') => k x g'
           | None => None
           end.

(** An exception, or a value, of a step that does not draw. *)
Definition rlift {G A : Type} (x : option A) : rand G A :=
  fun g => match x with
           | Some a => Some (a, g)
           | None => None
           end.

Notation "x <~ e ;; k" := (rbind e (fun x => k))
  (at level 61, e at next level, right associativity).

(** [a[lo:hi]] for [0 <= lo], [0 <= hi]: the bounds are clipped to the
    length. *)
Definition py_slice {A : Type} (lo hi : nat) (a : list A) : list A :=
  firstn (hi - lo) (skipn lo a).

(** [a[-1]]: an [IndexError] on the empty list. *)
Definition py_last {A : Type} (a : list A) : option A :=
  match a with
  | [] => None
  | x :: a' => Some (last a' x)
  end.

(** [a[p]] with an array of indices [p]: the rows of [a] in the order of
    [p]; an index outside [a] is an [IndexError]. *)
Definition take {A : Type} (a : list A) (p : list nat) : option (list A) :=
  mapM (nth_error a) p.

(** *** [draw_samples] *)

Section DrawSamples.
Context {G T : Type}.

(** [np.random.multinomial(n, pvals)] and
    [np.random.multivariate_normal(mean, cov)]. *)
Variable multinomial : nat -> vector T -> rand G (list nat).
Variable multivariate_normal : vector T -> matrix T -> rand G (vector T).

(** The globals [mu_s] and [cov_s] of the notebook, which the body reads
    instead of its arguments [mu_arr] and [cov_arr]. *)
Variables (mu_s : list (vector T)) (cov_s : list (matrix T)).

(** The inner loop, [for c in xrange(count)]. *)
Fixpoint draw_component (idx count : nat) (zy : list (vector T) * list nat)
  : rand G (list (vector T) * list nat) :=
  match count with
  | O => rret zy
  | S count' =>
      let y := snd zy ++ [idx] in
      mu <~ rlift (nth_error mu_s idx) ;;
      cov <~ rlift (nth_error cov_s idx) ;;
      s <~ multivariate_normal mu cov ;;
      draw_component idx count' (fst zy ++ [s], y)
  end.

(** The outer loop, [for idx, count in enumerate(comp_arr)]. *)
Fixpoint draw_components (idx : nat) (comp_arr : list nat)
         (zy : list (vector T) * list nat)
  : rand G (list (vector T) * list nat) :=
  match comp_arr with
  | [] => rret zy
  | count :: comp_arr' =>
      zy' <~ draw_component idx count zy ;;
      draw_components (S idx) comp_arr' zy'
  end.

(** The result is [np.array(z)] and the labels as one column,
    [np.array(y)[np.newaxis].T]. *)
Definition draw_samples (pi_arr : vector T) (mu_arr : list (vector T))
           (cov_arr : list (matrix T)) (n_samples : nat)
  : rand G (matrix T * list (list nat)) :=
  comp_arr <~ multinomial n_samples pi_arr ;;
  zy <~ draw_components 0 comp_arr ([], []) ;;
  rret (fst zy, col (snd zy)).

(** [drawn_from idx s]: [s] is a draw from the normal distribution of the
    global mean and covariance number [idx], at some state of the
    generator. *)
Definition drawn_from (idx : nat) (s : vector T) : Prop :=
  exists mu cov g1 g2,
    nth_error mu_s idx = Some mu /\ nth_error cov_s idx = Some cov
    /\ multivariate_normal mu cov g1 = Some (s, g2).

End DrawSamples.

(** The labels the two loops of [draw_samples] append: [count] copies of
    each component's index, in the order of the components. *)
Fixpoint labels_from (idx : nat) (comp_arr : list nat) : list nat :=
  match comp_arr with
  | [] => []
  | count :: comp_arr' => repeat idx count ++ labels_from (S idx) comp_arr'
  end.

Definition component_labels (comp_arr : list nat) : list nat :=
  labels_from 0 comp_arr.

(** *** [shuffle_in_unison_inplace] *)

Section Shuffle.
Context {G : Type}.

(** [np.random.permutation(n)]. *)
Variable permutation : nat -> rand G (list nat).

Definition shuffle_in_unison_inplace {A B : Type} (a : list A) (b : list B)
  : rand G (list A * list B) :=
  if length a =? length b
  then p <~ permutation (length a) ;;
       a' <~ rlift (take a p) ;;
       b' <~ rlift (take b p) ;;
       rret (a', b')
  else fun _ => None.

End Shuffle.

(** *** The training data

    [X_train, y_train = draw_samples(pi, mu_s, cov_s, N)] followed by
    [X_train, y_train = shuffle_in_unison_inplace(X_train, y_train)]. *)

Section TrainingData.
Context {G T : Type}.
Variable multinomial : nat -> vector T -> rand G (list nat).
Variable multivariate_normal : vector T -> matrix T -> rand G (vector T).
Variable permutation : nat -> rand G (list nat).

Definition training_data (pi : vector T) (mu_s : list (vector T))
           (cov_s : list (matrix T)) (N : nat)
  : rand G (matrix T * list (list nat)) :=
  Xy <~ draw_samples multinomial multivariate_normal mu_s cov_s pi mu_s cov_s N ;;
  shuffle_in_unison_inplace permutation (fst Xy) (snd Xy).

End TrainingData.

(** *** [init_neural_net] and [neural_net] *)

(** [tf.nn.relu] on one entry. *)
Class Relu (T : Type) : Type := { srelu : T -> T }.

#[export] Instance R_relu : Relu R := { srelu := fun x => Rmax x 0 }.

(** The dictionary [{'w': [...], 'b': [...]}]: its two keys are fixed, so it
    is a record of the two lists. *)
Record params (T : Type) : Type := {
  params_w : list (matrix T);
  params_b : list (vector T)
}.

Arguments params_w {T} _.
Arguments params_b {T} _.

Section NeuralNet.
Context {T : Type} `{Arith T} `{Relu T}.

(** [tf.zeros([n])]. *)
Definition tf_zeros (n : nat) : vector T := repeat szero n.

(** [M + b] with a matrix [M] and a rank-1 [b]: [b] is read as one row and
    broadcast over the rows of [M]. *)
Definition tf_add_bias (M : matrix T) (b : vector T) : option (matrix T) :=
  broadcast (broadcast (fun x y => Some (sadd x y))) M [b].

(** [tf.nn.relu] on a matrix. *)
Definition tf_relu (M : matrix T) : matrix T := map2d srelu M.

(** The loop of [neural_net] over the zipped hidden layers; [h] is the list
    of activations and [h[-1]] its last element. *)
Fixpoint hidden_layers (wbs : list (list (list T) * list T)) (h : list (matrix T))
  : option (list (matrix T)) :=
  match wbs with
  | [] => Some h
  | (w, b) :: wbs' =>
      hw <- tf_matmul (last h []) w ;;
      z <- tf_add_bias hw b ;;
      hidden_layers wbs' (h ++ [tf_relu z])
  end.

Definition neural_net (X : matrix T) (p : params T) : option (matrix T) :=
  let h := [X] in
  h <- hidden_layers (combine (removelast (params_w p)) (removelast (params_b p))) h ;;
  w_last <- py_last (params_w p) ;;
  b_last <- py_last (params_b p) ;;
  out <- tf_matmul (last h []) w_last ;;
  tf_add_bias out b_last.

(** [net_shape d ws bs e]: the weights and biases are those of a chain of
    layers from dimension [d] to dimension [e], each weight with at least
    one row. *)
Fixpoint net_shape (d : nat) (ws : list (matrix T)) (bs : list (vector T))
         (e : nat) : Prop :=
  match ws, bs with
  | [], [] => d = e
  | w :: ws', b :: bs' =>
      (1 <= d)%nat
      /\ exists e1, rect d e1 w /\ length b = e1 /\ net_shape e1 ws' bs' e
  | _, _ => False
  end.

Context {G : Type}.

(** [tf.random_normal([n_in, n_out], stddev=std)]. *)
Variable random_normal : nat -> nat -> T -> rand G (matrix T).

(** The loop of [init_neural_net] over
    [zip(layer_sizes[:-1], layer_sizes[1:])]. *)
Fixpoint init_layers (sizes : list (nat * nat)) (std : T) (p : params T)
  : rand G (params T) :=
  match sizes with
  | [] => rret p
  | (n_in, n_out) :: sizes' =>
      w <~ random_normal n_in n_out std ;;
      init_layers sizes' std
        {| params_w := params_w p ++ [w];
           params_b := params_b p ++ [tf_zeros n_out] |}
  end.

Definition init_neural_net (layer_sizes : list nat) (std : T) : rand G (params T) :=
  init_layers (combine (removelast layer_sizes) (tl layer_sizes)) std
              {| params_w := []; params_b := [] |}.

End NeuralNet.

(** *** The batches of the training loop

    [for idx in xrange(N/batch_size)] feeds
    [X_train[idx*batch_size:(idx+1)*batch_size, :]]; the division is
    Python 2's integer division. *)

Definition batch {A : Type} (X_train : list A) (batch_size idx : nat) : list A :=
  py_slice (idx * batch_size) ((idx + 1) * batch_size) X_train.

Definition epoch_batches {A : Type} (X_train : list A) (N batch_size : nat)
  : list (list A) :=
  map (batch X_train batch_size) (seq 0 (N / batch_size)).

(** * Lemmas *)

(** ** The option monad and broadcasting *)

Lemma mapM_total {A B : Type} (f : A -> option B) (g : A -> B) (xs : list A) :
  (forall x, In x xs -> f x = Some (g x)) ->
  mapM f xs = Some (map g xs).
Proof.
  induction xs as [|x xs IH]; intros Hf; simpl.
  - reflexivity.
  - rewrite (Hf x (or_introl eq_refl)). simpl.
    rewrite IH by (intros y Hy; apply Hf; right; exact Hy).
    reflexivity.
Qed.

Section MonadLemmas.
Context {A B C : Type}.

Lemma zipM_total (f : A -> B -> option C) (g : A -> B -> C)
      (xs : list A) (ys : list B) :
  length xs = length ys ->
  (forall p, In p (combine xs ys) -> f (fst p) (snd p) = Some (g (fst p) (snd p))) ->
  zipM f xs ys = Some (map (fun p => g (fst p) (snd p)) (combine xs ys)).
Proof.
  revert ys. induction xs as [|x xs IH]; intros [|y ys] Hlen Hf; simpl in *;
    try discriminate.
  - reflexivity.
  - pose proof (Hf (x, y) (or_introl eq_refl)) as E. simpl in E.
    rewrite E. simpl.
    rewrite IH.
    + reflexivity.
    + lia.
    + intros p Hp. apply Hf. right. exact Hp.
Qed.

(** Broadcasting along one axis, in the three shapes that succeed. *)
Lemma broadcast_same (f : A -> B -> option C) (g : A -> B -> C) xs ys :
  length xs = length ys ->
  (forall p, In p (combine xs ys) -> f (fst p) (snd p) = Some (g (fst p) (snd p))) ->
  broadcast f xs ys = Some (map (fun p => g (fst p) (snd p)) (combine xs ys)).
Proof.
  intros Hlen Hf. unfold broadcast.
  rewrite (proj2 (Nat.eqb_eq _ _) Hlen).
  apply zipM_total; assumption.
Qed.

Lemma broadcast_left (f : A -> B -> option C) (g : A -> B -> C) x ys :
  (forall y, In y ys -> f x y = Some (g x y)) ->
  broadcast f [x] ys = Some (map (g x) ys).
Proof.
  intros Hf. unfold broadcast.
  destruct (length [x] =? length ys) eqn:E.
  - apply Nat.eqb_eq in E. destruct ys as [|y [|? ?]]; try discriminate.
    simpl. rewrite (Hf y (or_introl eq_refl)). reflexivity.
  - apply mapM_total. exact Hf.
Qed.

Lemma broadcast_right (f : A -> B -> option C) (g : A -> B -> C) xs y :
  (forall x, In x xs -> f x y = Some (g x y)) ->
  broadcast f xs [y] = Some (map (fun x => g x y) xs).
Proof.
  intros Hf. unfold broadcast.
  destruct (length xs =? length [y]) eqn:E.
  - apply Nat.eqb_eq in E. destruct xs as [|x [|? ?]]; try discriminate.
    simpl. rewrite (Hf x (or_introl eq_refl)). reflexivity.
  - destruct xs as [|x [|x' xs]].
    + reflexivity.
    + discriminate.
    + apply mapM_total. exact Hf.
Qed.
End MonadLemmas.

Lemma map_seq_nth {A B : Type} (f : A -> B) (d : A) (l : list A) :
  map f l = map (fun i => f (nth i l d)) (seq 0 (length l)).
Proof.
  induction l as [|x l IH]; simpl; [reflexivity|].
  f_equal. rewrite <- seq_shift, map_map. exact IH.
Qed.

Lemma rect_length {T : Type} {m d : nat} {M : matrix T} :
  rect m d M -> length M = m.
Proof. intros [H _]. exact H. Qed.

Lemma rect_row {T : Type} {m d : nat} {M : matrix T} {r : list T} :
  rect m d M -> In r M -> length r = d.
Proof. intros [_ H] Hin. rewrite Forall_forall in H. apply H, Hin. Qed.

Lemma rect_hd {T : Type} {m d : nat} {M : matrix T} :
  rect m d M -> 1 <= m -> length (hd [] M) = d.
Proof.
  intros [Hl Hr] Hm. destruct M as [|r M]; simpl in *; [lia|].
  now inversion Hr.
Qed.

Lemma rect_map2d {T : Type} (f : T -> T) {m d : nat} {M : matrix T} :
  rect m d M -> rect m d (map2d f M).
Proof.
  intros [Hl Hr]. split.
  - unfold map2d. now rewrite length_map.
  - unfold map2d. apply Forall_map.
    eapply Forall_impl; [|exact Hr]. intros r Hr'. simpl.
    now rewrite length_map.
Qed.

Lemma col_length {T : Type} (v : vector T) : length (col v) = length v.
Proof. apply length_map. Qed.

Section ClosedForms.
Context {T : Type} `{Scalar T}.

Lemma sinkhorn_cost_closed {m n d : nat} {X Y : matrix T} :
  rect m d X -> rect n d Y ->
  sinkhorn_cost X Y = Some (cost_matrix X Y).
Proof.
  intros HX HY. unfold sinkhorn_cost, tf_sub3, expand_dims_1, expand_dims_0.
  rewrite (broadcast_right
             (broadcast (broadcast (fun x y => Some (ssub x y))))
             (fun (x : list (list T)) (Ys : list (list T)) =>
                map (fun y =>
                  map (fun p => ssub (fst p) (snd p)) (combine (hd [] x) y)) Ys)).
  - simpl. f_equal. unfold reduce_sum_last, tf_square, map3d, map2d, cost_matrix.
    rewrite !map_map. apply map_ext. intros x. simpl.
    rewrite !map_map. apply map_ext. intros y.
    unfold sqdist. rewrite map_map. reflexivity.
  - intros x Hx. apply in_map_iff in Hx. destruct Hx as [r [<- Hr]].
    rewrite (broadcast_left
               (broadcast (fun x y => Some (ssub x y)))
               (fun (r : list T) (y : list T) =>
                  map (fun p => ssub (fst p) (snd p)) (combine r y))).
    + reflexivity.
    + intros y Hy.
      apply (broadcast_same (fun x y => Some (ssub x y)) (fun x y => ssub x y)).
      * rewrite (rect_row HX Hr), (rect_row HY Hy). reflexivity.
      * intros p _. reflexivity.
Qed.

Lemma cost_matrix_rect {m n d : nat} {X Y : matrix T} :
  rect m d X -> rect n d Y -> rect m n (cost_matrix X Y).
Proof.
  intros [HX _] [HY _]. split.
  - unfold cost_matrix. now rewrite length_map.
  - unfold cost_matrix. apply Forall_map, Forall_forall. intros x _.
    now rewrite length_map.
Qed.

Lemma sinkhorn_kernel_closed (c : matrix T) (epsilon : T) :
  sinkhorn_kernel c epsilon = map2d (kernel_entry epsilon) c.
Proof.
  unfold sinkhorn_kernel, tf_exp, tf_div_scalar, tf_neg, map2d, kernel_entry.
  rewrite !map_map. apply map_ext. intros r. now rewrite !map_map.
Qed.

(** *** Transposition *)

Lemma tf_transpose_length (M : matrix T) :
  length (tf_transpose szero M) = length (hd [] M).
Proof. unfold tf_transpose. now rewrite length_map, length_seq. Qed.

Lemma tf_transpose_rows (M : matrix T) :
  Forall (fun r => length r = length M) (tf_transpose szero M).
Proof.
  unfold tf_transpose. apply Forall_map, Forall_forall. intros j _.
  now rewrite length_map.
Qed.

Lemma tf_transpose_col {v : vector T} :
  v <> [] -> tf_transpose szero (col v) = [v].
Proof.
  intros Hv. destruct v as [|x v]; [congruence|].
  unfold tf_transpose, col. simpl. f_equal. f_equal.
  rewrite map_map. simpl. apply map_id.
Qed.

(** *** Matrix products with a column *)

Lemma forallb_row_lengths {n : nat} {A : matrix T} :
  Forall (fun r => length r = n) A ->
  forallb (fun r => length r =? n) A = true.
Proof.
  intros HA. apply forallb_forall. intros r Hr.
  rewrite Forall_forall in HA. apply Nat.eqb_eq, HA, Hr.
Qed.

Lemma tf_matmul_col {A : matrix T} {v : vector T} :
  v <> [] -> Forall (fun r => length r = length v) A ->
  tf_matmul A (col v) = Some (col (map (fun r => dot r v) A)).
Proof.
  intros Hv HA. unfold tf_matmul.
  rewrite col_length, (forallb_row_lengths HA), (tf_transpose_col Hv).
  unfold col. rewrite map_map. reflexivity.
Qed.

Lemma tf_matmul_row_mismatch (w : vector T) (B : matrix T) :
  length w <> length B -> tf_matmul [w] B = None.
Proof.
  intros Hne. unfold tf_matmul. simpl.
  destruct (length w =? length B) eqn:E; [|reflexivity].
  apply Nat.eqb_eq in E. contradiction.
Qed.

Lemma scalar_ops_col (s : T) (v : vector T) :
  tf_scalar_div sone (tf_add_scalar (col v) s)
  = col (map (fun x => sdiv sone (sadd x s)) v).
Proof.
  unfold tf_scalar_div, tf_add_scalar, map2d, col.
  rewrite !map_map. reflexivity.
Qed.

Lemma scale_length (K : matrix T) (v : vector T) :
  length (scale K v) = length K.
Proof. unfold scale. apply length_map. Qed.

(** *** One round and the loop, on columns *)

Lemma sinkhorn_round_col (K : matrix T) (l : Z) (a : matrix T) (v : vector T) :
  K <> [] -> v <> [] -> Forall (fun r => length r = length v) K ->
  sinkhorn_round K l (a, col v)
  = Some (col (fst (vec_round K (@nil T, v))), col (snd (vec_round K (@nil T, v)))).
Proof.
  intros HK Hv Hrows. unfold sinkhorn_round.
  rewrite (tf_matmul_col Hv Hrows). simpl.
  rewrite scalar_ops_col, map_map. fold (scale K v).
  rewrite tf_matmul_col.
  - simpl. rewrite scalar_ops_col, map_map. reflexivity.
  - intros E. apply (f_equal (@length T)) in E. rewrite scale_length in E.
    destruct K; [congruence | discriminate].
  - rewrite scale_length. apply tf_transpose_rows.
Qed.

Lemma vec_round_lengths {m n : nat} {K : matrix T} (uv : vector T * vector T) :
  rect m n K -> (1 <= m)%nat ->
  length (fst (vec_round K uv)) = m /\ length (snd (vec_round K uv)) = n.
Proof.
  intros HK Hm. unfold vec_round. simpl. rewrite !scale_length. split.
  - apply (rect_length HK).
  - rewrite tf_transpose_length. apply (rect_hd HK Hm).
Qed.

Lemma rounds_lengths {m n : nat} {K : matrix T} (k : nat) (uv : vector T * vector T) :
  rect m n K -> (1 <= m)%nat -> (1 <= k)%nat ->
  length (fst (rounds K k uv)) = m /\ length (snd (rounds K k uv)) = n.
Proof.
  intros HK Hm. revert uv. induction k as [|k IH]; intros uv Hk; [lia|].
  simpl. destruct k as [|k].
  - simpl. apply (vec_round_lengths uv HK Hm).
  - apply IH. lia.
Qed.

Lemma rounds_succ_r (K : matrix T) (k : nat) (uv : vector T * vector T) :
  rounds K (S k) uv = vec_round K (rounds K k uv).
Proof.
  revert uv. induction k as [|k IH]; intros uv; [reflexivity|].
  change (rounds K (S (S k)) uv) with (rounds K (S k) (vec_round K uv)).
  rewrite IH. reflexivity.
Qed.

End ClosedForms.

Lemma range_length (L : Z) : length (range L) = Z.to_nat L.
Proof. unfold range. now rewrite length_map, length_seq. Qed.

Lemma range_nonpos (L : Z) : (L <= 0)%Z -> range L = [].
Proof.
  intros HL. unfold range. replace (Z.to_nat L) with 0%nat by lia. reflexivity.
Qed.

Lemma range_pos (L : Z) : (1 <= L)%Z -> exists l ls, range L = l :: ls.
Proof.
  intros HL. unfold range. destruct (Z.to_nat L) as [|k] eqn:E; [lia|].
  simpl. eauto.
Qed.

(** The instrumented loop runs the body once per element and otherwise
    computes what the plain loop computes. *)
Lemma for_each_ticking {S : Type} (body : Z -> S -> option S) (ls : list Z)
      (s : S) (k : nat) :
  for_each ls (ticking body) (s, k)
  = match for_each ls body s with
    | Some s' => Some (s', (k + length ls)%nat)
    | None => None
    end.
Proof.
  revert s k. induction ls as [|l ls IH]; intros s k; simpl.
  - now rewrite Nat.add_0_r.
  - unfold ticking at 1. simpl. destruct (body l s) as [s'|]; simpl.
    + rewrite IH. destruct (for_each ls body s'); [|reflexivity].
      f_equal. f_equal. lia.
    + reflexivity.
Qed.

Section ClosedLoop.
Context {T : Type} `{Scalar T}.

Lemma for_each_rounds {m n : nat} {K : matrix T} (ls : list Z) (u v : vector T) :
  rect m n K -> (1 <= m)%nat -> (1 <= n)%nat -> length v = n ->
  for_each ls (sinkhorn_round K) (col u, col v)
  = Some (col (fst (rounds K (length ls) (u, v))),
          col (snd (rounds K (length ls) (u, v)))).
Proof.
  intros HK Hm Hn. revert u v. induction ls as [|l ls IH]; intros u v Hv.
  - reflexivity.
  - cbn [for_each]. rewrite sinkhorn_round_col.
    + cbn [bind]. rewrite IH.
      * reflexivity.
      * apply (vec_round_lengths _ HK Hm).
    + destruct HK as [HK _]. destruct K; simpl in HK; [lia | discriminate].
    + destruct v; simpl in Hv; [lia | discriminate].
    + rewrite Hv. apply HK.
Qed.

(** The first round overwrites [a] before reading it. *)
Lemma for_each_first_a_irrelevant (K : matrix T) (ls : list Z)
      (a a' b : matrix T) :
  ls <> [] ->
  for_each ls (sinkhorn_round K) (a, b) = for_each ls (sinkhorn_round K) (a', b).
Proof. intros Hls. destruct ls as [|l ls]; [congruence|]. reflexivity. Qed.

Lemma tf_mul_closed {m n : nat} {K c : matrix T} :
  rect m n K -> rect m n c ->
  tf_mul K c
  = Some (map (fun p => map (fun q => smul (fst q) (snd q))
                            (combine (fst p) (snd p)))
              (combine K c)).
Proof.
  intros HK Hc. unfold tf_mul.
  apply (broadcast_same
           (broadcast (fun x y => Some (smul x y)))
           (fun rK rc => map (fun q => smul (fst q) (snd q)) (combine rK rc))).
  - now rewrite (rect_length HK), (rect_length Hc).
  - intros [rK rc] Hp. simpl.
    apply (broadcast_same (fun x y => Some (smul x y)) (fun x y => smul x y)).
    + rewrite (rect_row HK (in_combine_l _ _ _ _ Hp)).
      rewrite (rect_row Hc (in_combine_r _ _ _ _ Hp)). reflexivity.
    + intros q _. reflexivity.
Qed.

Lemma weighted_rect {m n : nat} {K c : matrix T} :
  rect m n K -> rect m n c ->
  rect m n (map (fun p => map (fun q => smul (fst q) (snd q))
                              (combine (fst p) (snd p)))
                (combine K c)).
Proof.
  intros HK Hc. split.
  - rewrite length_map, length_combine, (rect_length HK), (rect_length Hc). lia.
  - apply Forall_map, Forall_forall. intros [rK rc] Hp. simpl.
    rewrite length_map, length_combine.
    rewrite (rect_row HK (in_combine_l _ _ _ _ Hp)).
    rewrite (rect_row Hc (in_combine_r _ _ _ _ Hp)). lia.
Qed.

Lemma sinkhorn_result_col {m n : nat} {K c : matrix T} (u v : vector T) :
  rect m n K -> rect m n c -> (1 <= m)%nat -> (1 <= n)%nat ->
  length u = m -> length v = n ->
  sinkhorn_result K c (col u, col v) = Some [[contraction K c (u, v)]].
Proof.
  intros HK Hc Hm Hn Hu Hv. unfold sinkhorn_result.
  rewrite (tf_mul_closed HK Hc). cbn [bind].
  pose proof (weighted_rect HK Hc) as HW.
  set (W := map _ (combine K c)) in *.
  pose proof (rect_length HW) as HWL.
  rewrite tf_matmul_col.
  - cbn [bind]. rewrite tf_transpose_col.
    + rewrite tf_matmul_col.
      * reflexivity.
      * destruct u; simpl in Hu; [lia | discriminate].
      * constructor; [|constructor].
        rewrite length_map. transitivity m; [exact HWL | symmetry; exact Hu].
    + intros E. apply (f_equal (@length T)) in E.
      rewrite length_map in E. simpl in E.
      assert (length W = 0%nat) as E' by exact E. lia.
  - destruct v; simpl in Hv; [lia | discriminate].
  - rewrite Hv. apply HW.
Qed.

Lemma sinkhorn_result_mismatch {m n : nat} {K c : matrix T} (u v : vector T) :
  rect m n K -> rect m n c -> (1 <= m)%nat -> (1 <= n)%nat ->
  length u <> m -> length v = n ->
  sinkhorn_result K c (col u, col v) = None.
Proof.
  intros HK Hc Hm Hn Hu Hv. unfold sinkhorn_result.
  rewrite (tf_mul_closed HK Hc). cbn [bind].
  pose proof (weighted_rect HK Hc) as HW.
  set (W := map _ (combine K c)) in *.
  pose proof (rect_length HW) as HWL.
  rewrite tf_matmul_col.
  - cbn [bind]. rewrite tf_transpose_col.
    + apply tf_matmul_row_mismatch.
      rewrite length_map, col_length. intros E.
      apply Hu. transitivity (length W); [symmetry; exact E | exact HWL].
    + intros E. apply (f_equal (@length T)) in E.
      rewrite length_map in E. simpl in E.
      assert (length W = 0%nat) as E' by exact E. lia.
  - destruct v; simpl in Hv; [lia | discriminate].
  - rewrite Hv. apply HW.
Qed.

Lemma tf_ones_col (n : nat) : tf_ones (T:=T) n 1 = col (repeat sone n).
Proof.
  unfold tf_ones, col. induction n as [|n IH]; simpl; [reflexivity|].
  f_equal. exact IH.
Qed.

Lemma sinkhorn_init_col (Y : matrix T) :
  sinkhorn_init Y
  = (col (repeat sone (length Y)), col (repeat sone (length Y))).
Proof. unfold sinkhorn_init, shape_0. now rewrite tf_ones_col. Qed.

Lemma kernel_rect {m n : nat} {c : matrix T} (epsilon : T) :
  rect m n c -> rect m n (sinkhorn_kernel c epsilon).
Proof. intros Hc. rewrite sinkhorn_kernel_closed. now apply rect_map2d. Qed.

(** The loop from the routine's own initial pair, plain and with the round
    counter. *)
Lemma sinkhorn_loop_closed {m n d : nat} {X Y : matrix T} (epsilon : T) (L : Z) :
  rect m d X -> rect n d Y -> (1 <= m)%nat -> (1 <= n)%nat ->
  for_each (range L) (sinkhorn_round (sinkhorn_kernel (cost_matrix X Y) epsilon))
           (sinkhorn_init Y)
  = Some (col (fst (rounds (sinkhorn_kernel (cost_matrix X Y) epsilon)
                           (Z.to_nat L) (repeat sone n, repeat sone n))),
          col (snd (rounds (sinkhorn_kernel (cost_matrix X Y) epsilon)
                           (Z.to_nat L) (repeat sone n, repeat sone n)))).
Proof.
  intros HX HY Hm Hn.
  pose proof (kernel_rect epsilon (cost_matrix_rect HX HY)) as HK.
  rewrite sinkhorn_init_col, (rect_length HY).
  rewrite (for_each_rounds (range L) _ _ HK Hm Hn (repeat_length _ _)).
  now rewrite range_length.
Qed.

Lemma sinkhorn_loop_ticks {m n d : nat} {X Y : matrix T} (epsilon : T) (L : Z) :
  rect m d X -> rect n d Y -> (1 <= m)%nat -> (1 <= n)%nat ->
  for_each (range L)
           (ticking (sinkhorn_round (sinkhorn_kernel (cost_matrix X Y) epsilon)))
           (sinkhorn_init Y, 0%nat)
  = Some ((col (fst (rounds (sinkhorn_kernel (cost_matrix X Y) epsilon)
                            (Z.to_nat L) (repeat sone n, repeat sone n))),
           col (snd (rounds (sinkhorn_kernel (cost_matrix X Y) epsilon)
                            (Z.to_nat L) (repeat sone n, repeat sone n)))),
          Z.to_nat L).
Proof.
  intros HX HY Hm Hn.
  rewrite for_each_ticking, (sinkhorn_loop_closed epsilon L HX HY Hm Hn).
  now rewrite range_length.
Qed.

(** The closed form of the routine from an initial pair of columns. *)
Lemma sinkhorn_from_closed {m n d : nat} {X Y : matrix T}
      (epsilon : T) (L : Z) (u v : vector T) :
  rect m d X -> rect n d Y -> (1 <= m)%nat -> (1 <= n)%nat ->
  length v = n ->
  length (fst (rounds (sinkhorn_kernel (cost_matrix X Y) epsilon)
                      (Z.to_nat L) (u, v))) = m ->
  sinkhorn_from X Y epsilon L (col u, col v)
  = Some [[contraction (sinkhorn_kernel (cost_matrix X Y) epsilon)
                       (cost_matrix X Y)
                       (rounds (sinkhorn_kernel (cost_matrix X Y) epsilon)
                               (Z.to_nat L) (u, v))]].
Proof.
  intros HX HY Hm Hn Hv Hu. unfold sinkhorn_from.
  rewrite (sinkhorn_cost_closed HX HY). cbn [bind].
  pose proof (cost_matrix_rect HX HY) as Hc.
  pose proof (kernel_rect epsilon Hc) as HK.
  rewrite (for_each_rounds (range L) u v HK Hm Hn Hv). cbn [bind].
  rewrite range_length.
  set (uv := rounds _ _ _) in *.
  replace [[contraction _ _ uv]]
    with [[contraction (sinkhorn_kernel (cost_matrix X Y) epsilon)
                       (cost_matrix X Y) (fst uv, snd uv)]]
    by (destruct uv; reflexivity).
  apply (sinkhorn_result_col _ _ HK Hc Hm Hn Hu).
  destruct (Z.to_nat L) as [|k] eqn:E.
  - exact Hv.
  - apply (rounds_lengths (S k) (u, v) HK Hm). lia.
Qed.

(** With at least one round the routine returns its closed form, whatever
    the sizes [m] and [n]. *)
Lemma sinkhorn_loss_closed {m n d : nat} {X Y : matrix T} (epsilon : T) (L : Z) :
  rect m d X -> rect n d Y -> (1 <= m)%nat -> (1 <= n)%nat ->
  (1 <= L)%Z \/ m = n ->
  sinkhorn_loss X Y epsilon L
  = Some [[contraction (sinkhorn_kernel (cost_matrix X Y) epsilon)
                       (cost_matrix X Y)
                       (rounds (sinkhorn_kernel (cost_matrix X Y) epsilon)
                               (Z.to_nat L) (repeat sone n, repeat sone n))]].
Proof.
  intros HX HY Hm Hn HL. unfold sinkhorn_loss.
  rewrite sinkhorn_init_col, (rect_length HY).
  apply (sinkhorn_from_closed epsilon L _ _ HX HY Hm Hn).
  - apply repeat_length.
  - destruct (Z.to_nat L) as [|k] eqn:E.
    + simpl. rewrite repeat_length. destruct HL; [lia | congruence].
    + pose proof (cost_matrix_rect HX HY) as Hc.
      apply (rounds_lengths (S k) _ (kernel_rect epsilon Hc) Hm). lia.
Qed.

(** Without a round and with [m <> n] the final product is rejected. *)
Lemma sinkhorn_loss_no_round_mismatch {m n d : nat} {X Y : matrix T}
      (epsilon : T) (L : Z) :
  rect m d X -> rect n d Y -> (1 <= m)%nat -> (1 <= n)%nat ->
  (L <= 0)%Z -> m <> n ->
  sinkhorn_loss X Y epsilon L = None.
Proof.
  intros HX HY Hm Hn HL Hne. unfold sinkhorn_loss, sinkhorn_from.
  rewrite (sinkhorn_cost_closed HX HY). cbn [bind].
  rewrite (range_nonpos L HL). cbn [for_each]. cbn [bind].
  rewrite sinkhorn_init_col, (rect_length HY).
  pose proof (cost_matrix_rect HX HY) as Hc.
  apply (sinkhorn_result_mismatch _ _ (kernel_rect epsilon Hc) Hc Hm Hn).
  - rewrite repeat_length. congruence.
  - apply repeat_length.
Qed.

End ClosedLoop.

(** ** Sums and entries over the reals *)

Section RealLemmas.
Local Open Scope R_scope.
Import Spec.

Lemma fold_left_Rplus (l : list R) (a : R) :
  fold_left Rplus l a = a + fold_right Rplus 0 l.
Proof.
  revert a. induction l as [|x l IH]; intros a; simpl.
  - lra.
  - rewrite IH. lra.
Qed.

Lemma vsum_fold_right (l : vector R) : vsum l = fold_right Rplus 0 l.
Proof. unfold vsum. cbn. rewrite fold_left_Rplus. lra. Qed.

Lemma big_sum_ext (n : nat) (f g : nat -> R) :
  (forall i, (i < n)%nat -> f i = g i) -> big_sum n f = big_sum n g.
Proof.
  intros Hfg. unfold big_sum. f_equal. apply map_ext_in.
  intros i Hi. apply in_seq in Hi. apply Hfg. lia.
Qed.

Lemma fold_right_Rplus_scale (l : list R) (a : R) :
  fold_right Rplus 0 (map (fun x => x * a) l) = fold_right Rplus 0 l * a.
Proof. induction l as [|x l IH]; simpl; [lra | rewrite IH; lra]. Qed.

Lemma big_sum_scale (n : nat) (f : nat -> R) (a : R) :
  big_sum n (fun i => f i * a) = big_sum n f * a.
Proof.
  unfold big_sum. rewrite <- fold_right_Rplus_scale, map_map. reflexivity.
Qed.

Lemma fold_right_Rplus_nonneg (l : list R) :
  Forall (fun x => 0 <= x) l -> 0 <= fold_right Rplus 0 l.
Proof.
  induction 1 as [|x l Hx _ IH]; simpl; lra.
Qed.

Lemma big_sum_nonneg (n : nat) (f : nat -> R) :
  (forall i, (i < n)%nat -> 0 <= f i) -> 0 <= big_sum n f.
Proof.
  intros Hf. unfold big_sum. apply fold_right_Rplus_nonneg.
  apply Forall_map, Forall_forall. intros i Hi. apply in_seq in Hi.
  apply Hf. lia.
Qed.

(** A sum over a list is the sum of its entries by index. *)
Lemma vsum_map_big_sum {A : Type} (f : A -> R) (d : A) (l : list A) :
  vsum (map f l) = big_sum (length l) (fun i => f (nth i l d)).
Proof.
  rewrite vsum_fold_right. unfold big_sum. f_equal. apply map_seq_nth.
Qed.

Lemma dot_big_sum (r v : vector R) :
  length r = length v ->
  dot r v = big_sum (length r) (fun j => nth j r 0 * nth j v 0).
Proof.
  intros Hlen. unfold dot.
  rewrite (vsum_map_big_sum _ (0, 0)), length_combine, <- Hlen, Nat.min_id.
  apply big_sum_ext. intros i Hi.
  rewrite combine_nth by exact Hlen. reflexivity.
Qed.

Lemma sqdist_big_sum (x y : vector R) :
  length x = length y ->
  sqdist x y = big_sum (length x) (fun k => (nth k x 0 - nth k y 0) ^ 2).
Proof.
  intros Hlen. unfold sqdist.
  rewrite (vsum_map_big_sum _ (0, 0)), length_combine, <- Hlen, Nat.min_id.
  apply big_sum_ext. intros i Hi.
  rewrite combine_nth by exact Hlen. cbn. ring.
Qed.

Lemma nth_map_in {A B : Type} (f : A -> B) (l : list A) (i : nat) (d : A) (d' : B) :
  (i < length l)%nat -> nth i (map f l) d' = f (nth i l d).
Proof.
  intros Hi. rewrite (nth_indep _ d' (f d)) by (now rewrite length_map).
  apply map_nth.
Qed.

Lemma entry_map2d (h : R -> R) (M : matrix R) (i j : nat) :
  (i < length M)%nat -> (j < length (nth i M []))%nat ->
  entry (map2d h M) i j = h (entry M i j).
Proof.
  intros Hi Hj. unfold entry, map2d.
  rewrite (nth_map_in _ _ _ [] _ Hi). apply (nth_map_in _ _ _ _ _ Hj).
Qed.

Lemma rect_nth {m d : nat} {M : matrix R} (i : nat) :
  rect m d M -> (i < m)%nat -> length (nth i M []) = d.
Proof.
  intros HM Hi. apply (rect_row HM). apply nth_In.
  now rewrite (rect_length HM).
Qed.

Lemma entry_cost_matrix {m n d : nat} {X Y : matrix R} (i j : nat) :
  rect m d X -> rect n d Y -> (i < m)%nat -> (j < n)%nat ->
  entry (cost_matrix X Y) i j = C X Y i j.
Proof.
  intros HX HY Hi Hj. unfold entry, cost_matrix, C.
  rewrite (nth_map_in _ _ _ [] _) by (now rewrite (rect_length HX)).
  rewrite (nth_map_in _ _ _ [] _) by (now rewrite (rect_length HY)).
  apply sqdist_big_sum.
  now rewrite (rect_nth i HX Hi), (rect_nth j HY Hj).
Qed.

Lemma entry_kernel {m n d : nat} {X Y : matrix R} (epsilon : R) (i j : nat) :
  rect m d X -> rect n d Y -> (i < m)%nat -> (j < n)%nat ->
  entry (sinkhorn_kernel (cost_matrix X Y) epsilon) i j = K X Y epsilon i j.
Proof.
  intros HX HY Hi Hj. rewrite sinkhorn_kernel_closed.
  pose proof (cost_matrix_rect HX HY) as Hc.
  rewrite entry_map2d.
  - rewrite (entry_cost_matrix i j HX HY Hi Hj). reflexivity.
  - now rewrite (rect_length Hc).
  - now rewrite (rect_nth i Hc Hi).
Qed.

End RealLemmas.

(** ** The routine refines the specification's steps *)

Section Refinement.
Local Open Scope R_scope.
Import Spec.

Variables (m n d : nat) (X Y : matrix R) (epsilon : R).
Hypothesis HX : rect m d X.
Hypothesis HY : rect n d Y.
Hypothesis Hm : (1 <= m)%nat.
Hypothesis Hn : (1 <= n)%nat.

Let c : matrix R := cost_matrix X Y.
Let Kc : matrix R := sinkhorn_kernel c epsilon.

Lemma c_rect : rect m n c.
Proof. apply (cost_matrix_rect HX HY). Qed.

Lemma Kc_rect : rect m n Kc.
Proof. apply kernel_rect, c_rect. Qed.

Lemma scale_update_u (v : vector R) :
  length v = n -> scale Kc v = update_u X Y epsilon v.
Proof.
  intros Hv. unfold scale, update_u.
  rewrite (map_seq_nth _ [] Kc), (rect_length Kc_rect), (rect_length HX).
  apply map_ext_in. intros i Hi. apply in_seq in Hi.
  assert (Hi' : (i < m)%nat) by lia.
  cbn. unfold delta. f_equal. f_equal.
  rewrite dot_big_sum by (now rewrite (rect_nth i Kc_rect Hi')).
  rewrite (rect_nth i Kc_rect Hi'), (rect_length HY).
  apply big_sum_ext. intros j Hj. f_equal.
  apply (entry_kernel epsilon i j HX HY Hi' Hj).
Qed.

Lemma scale_transpose_update_v (u : vector R) :
  length u = m -> scale (tf_transpose szero Kc) u = update_v X Y epsilon u.
Proof.
  intros Hu. unfold scale, update_v, tf_transpose.
  rewrite map_map, (rect_hd Kc_rect Hm), (rect_length HY).
  apply map_ext_in. intros j Hj. apply in_seq in Hj.
  assert (Hj' : (j < n)%nat) by lia.
  cbn. unfold delta. f_equal. f_equal.
  rewrite dot_big_sum by (now rewrite length_map, (rect_length Kc_rect)).
  rewrite length_map, (rect_length Kc_rect), (rect_length HX).
  apply big_sum_ext. intros i Hi. f_equal.
  rewrite (nth_map_in _ _ _ [] _) by (now rewrite (rect_length Kc_rect)).
  apply (entry_kernel epsilon i j HX HY Hi Hj').
Qed.

Lemma scalings_lengths (L : nat) :
  length (fst (scalings X Y epsilon L)) = m
  /\ length (snd (scalings X Y epsilon L)) = n.
Proof.
  destruct L as [|L]; simpl.
  - now rewrite !repeat_length, (rect_length HX), (rect_length HY).
  - unfold update_u, update_v.
    now rewrite !length_map, !length_seq, (rect_length HX), (rect_length HY).
Qed.

Lemma vec_round_step (u v : vector R) :
  length v = n ->
  vec_round Kc (u, v)
  = (update_u X Y epsilon v, update_v X Y epsilon (update_u X Y epsilon v)).
Proof.
  intros Hv. unfold vec_round. cbn [snd].
  rewrite (scale_update_u v Hv).
  rewrite scale_transpose_update_v; [reflexivity|].
  unfold update_u. now rewrite length_map, length_seq, (rect_length HX).
Qed.

(** From the first round on, the loop's vectors are the specification's,
    although the loop starts [u] at length [n]. *)
Lemma rounds_scalings (L : nat) (u0 : vector R) :
  rounds Kc (S L) (u0, repeat 1 n) = scalings X Y epsilon (S L).
Proof.
  induction L as [|L IH].
  - cbn [rounds]. rewrite vec_round_step by apply repeat_length.
    cbn [scalings snd]. now rewrite (rect_length HY).
  - rewrite rounds_succ_r, IH.
    destruct (scalings X Y epsilon (S L)) as [u v] eqn:E.
    rewrite vec_round_step.
    + change (scalings X Y epsilon (S (S L)))
        with (let u' := update_u X Y epsilon (snd (scalings X Y epsilon (S L))) in
              (u', update_v X Y epsilon u')).
      rewrite E. reflexivity.
    + pose proof (scalings_lengths (S L)) as [_ Hl]. now rewrite E in Hl.
Qed.

Lemma rounds_zero_square :
  m = n -> rounds Kc 0 (repeat 1 n, repeat 1 n) = scalings X Y epsilon 0.
Proof.
  intros E. cbn. now rewrite (rect_length HX), (rect_length HY), E.
Qed.

(** The [return] expression is the double sum of step 5. *)
Lemma contraction_contract (u v : vector R) :
  length u = m -> length v = n ->
  contraction Kc c (u, v) = contract X Y epsilon (u, v).
Proof.
  intros Hu Hv. unfold contraction, contract. cbn [fst snd].
  pose proof (weighted_rect Kc_rect c_rect) as HW.
  set (W := map _ (combine Kc c)) in *.
  assert (HWL : length W = m) by apply (rect_length HW).
  rewrite dot_big_sum
    by (rewrite length_map; transitivity m; [exact HWL | symmetry; exact Hu]).
  rewrite length_map, HWL, (rect_length HX), (rect_length HY).
  apply big_sum_ext. intros i Hi.
  rewrite (nth_map_in _ _ _ [] _) by lia.
  rewrite dot_big_sum by (now rewrite (rect_nth i HW Hi)).
  rewrite (rect_nth i HW Hi).
  rewrite <- big_sum_scale.
  apply big_sum_ext. intros j Hj. f_equal. f_equal.
  subst W.
  rewrite (nth_map_in _ _ _ ([], []) _)
    by (rewrite length_combine, (rect_length Kc_rect), (rect_length c_rect); lia).
  rewrite combine_nth
    by (now rewrite (rect_length Kc_rect), (rect_length c_rect)).
  cbn [fst snd].
  rewrite (nth_map_in _ _ _ (0, 0) _)
    by (rewrite length_combine, (rect_nth i Kc_rect Hi), (rect_nth i c_rect Hi); lia).
  rewrite combine_nth
    by (now rewrite (rect_nth i Kc_rect Hi), (rect_nth i c_rect Hi)).
  cbn [fst snd smul scalar_arith R_scalar R_arith].
  f_equal.
  - apply (entry_kernel epsilon i j HX HY Hi Hj).
  - apply (entry_cost_matrix i j HX HY Hi Hj).
Qed.

End Refinement.

(** ** Signs and bounds in exact arithmetic *)

Section Bounds.
Local Open Scope R_scope.
Import Spec.

Variables (X Y : matrix R) (epsilon : R).

Lemma delta_pos : 0 < delta.
Proof. unfold delta. lra. Qed.

Lemma C_nonneg (i j : nat) : 0 <= C X Y i j.
Proof.
  unfold C. apply big_sum_nonneg. intros k _. apply pow2_ge_0.
Qed.

Lemma K_pos (i j : nat) : 0 < K X Y epsilon i j.
Proof. unfold K. apply exp_pos. Qed.

Lemma exp_neg_div_unit (x : R) :
  0 < epsilon -> 0 <= x -> 0 < exp (- x / epsilon) <= 1.
Proof.
  intros He Hx. split; [apply exp_pos|]. rewrite <- exp_0.
  assert (Hle : - x / epsilon <= 0).
  { unfold Rdiv. pose proof (Rinv_0_lt_compat epsilon He) as Hi. nra. }
  destruct Hle as [Hlt | Heq].
  - apply Rlt_le, exp_increasing, Hlt.
  - rewrite Heq. apply Rle_refl.
Qed.


Lemma sqdist_nonneg (x y : vector R) : 0 <= sqdist x y.
Proof.
  unfold sqdist. rewrite vsum_fold_right.
  apply fold_right_Rplus_nonneg, Forall_map, Forall_forall.
  intros p _. change (0 <= Rsqr (fst p - snd p)). apply Rle_0_sqr.
Qed.

Lemma cost_matrix_nonneg :
  Forall (Forall (fun x => 0 <= x)) (cost_matrix X Y).
Proof.
  unfold cost_matrix. apply Forall_map, Forall_forall. intros x _.
  apply Forall_map, Forall_forall. intros y _. apply sqdist_nonneg.
Qed.

Lemma kernel_unit_interval (c : matrix R) :
  0 < epsilon -> Forall (Forall (fun x => 0 <= x)) c ->
  Forall (Forall (fun x => 0 < x <= 1)) (sinkhorn_kernel c epsilon).
Proof.
  intros He Hc. rewrite sinkhorn_kernel_closed. unfold map2d.
  apply Forall_map. eapply Forall_impl; [|exact Hc]. intros r Hr.
  apply Forall_map. eapply Forall_impl; [|exact Hr]. intros x Hx.
  apply exp_neg_div_unit; assumption.
Qed.

Lemma nth_nonneg (v : vector R) (i : nat) :
  Forall (fun x => 0 < x) v -> 0 <= nth i v 0.
Proof.
  intros Hv. destruct (Nat.lt_ge_cases i (length v)) as [Hi | Hi].
  - apply Rlt_le. rewrite Forall_forall in Hv. apply Hv, nth_In, Hi.
  - rewrite nth_overflow by exact Hi. apply Rle_refl.
Qed.

(** A reciprocal of a floored non-negative sum is positive and at most
    the reciprocal of the floor. *)
Lemma floored_reciprocal (s : R) :
  0 <= s -> 0 < 1 / (s + delta) <= 1 / delta.
Proof.
  intros Hs. pose proof delta_pos as Hd. split.
  - apply Rdiv_lt_0_compat; lra.
  - unfold Rdiv. rewrite !Rmult_1_l.
    apply Rinv_le_contravar; lra.
Qed.

Lemma in_range_pos (v : vector R) :
  Forall in_range v -> Forall (fun x => 0 < x) v.
Proof. apply Forall_impl. intros x [Hx _]. exact Hx. Qed.

Lemma update_u_in_range (v : vector R) :
  Forall (fun x => 0 < x) v -> Forall in_range (update_u X Y epsilon v).
Proof.
  intros Hv. unfold update_u. apply Forall_map, Forall_forall. intros i _.
  apply floored_reciprocal, big_sum_nonneg. intros j _.
  apply Rmult_le_pos; [apply Rlt_le, K_pos | apply nth_nonneg, Hv].
Qed.

Lemma update_v_in_range (u : vector R) :
  Forall (fun x => 0 < x) u -> Forall in_range (update_v X Y epsilon u).
Proof.
  intros Hu. unfold update_v. apply Forall_map, Forall_forall. intros j _.
  apply floored_reciprocal, big_sum_nonneg. intros i _.
  apply Rmult_le_pos; [apply Rlt_le, K_pos | apply nth_nonneg, Hu].
Qed.

Lemma scalings_pos (L : nat) :
  Forall (fun x => 0 < x) (fst (scalings X Y epsilon L))
  /\ Forall (fun x => 0 < x) (snd (scalings X Y epsilon L)).
Proof.
  induction L as [|L [IHu IHv]].
  - simpl. split; apply Forall_forall; intros x Hx;
      apply repeat_spec in Hx; subst x; lra.
  - cbn [scalings fst snd].
    assert (Hu : Forall in_range (update_u X Y epsilon (snd (scalings X Y epsilon L))))
      by apply update_u_in_range, IHv.
    split.
    + apply in_range_pos, Hu.
    + apply in_range_pos, update_v_in_range, in_range_pos, Hu.
Qed.

Lemma scalings_in_range (L : nat) :
  Forall in_range (fst (scalings X Y epsilon (S L)))
  /\ Forall in_range (snd (scalings X Y epsilon (S L))).
Proof.
  cbn [scalings fst snd]. pose proof (scalings_pos L) as [_ Hv].
  assert (Hu : Forall in_range (update_u X Y epsilon (snd (scalings X Y epsilon L))))
    by apply update_u_in_range, Hv.
  split; [exact Hu | apply update_v_in_range, in_range_pos, Hu].
Qed.

Lemma contract_nonneg (uv : vector R * vector R) :
  Forall (fun x => 0 < x) (fst uv) -> Forall (fun x => 0 < x) (snd uv) ->
  0 <= contract X Y epsilon uv.
Proof.
  intros Hu Hv. unfold contract.
  apply big_sum_nonneg. intros i _. apply big_sum_nonneg. intros j _.
  repeat apply Rmult_le_pos.
  - apply Rlt_le, K_pos.
  - apply C_nonneg.
  - apply nth_nonneg, Hv.
  - apply nth_nonneg, Hu.
Qed.

Lemma transport_cost_nonneg (L : nat) : 0 <= transport_cost X Y epsilon L.
Proof.
  unfold transport_cost. pose proof (scalings_pos L) as [Hu Hv].
  apply contract_nonneg; assumption.
Qed.

(** Without a round the scaling vectors are all ones and the double sum
    is that of the cost-weighted kernel. *)
Lemma transport_cost_no_round :
  transport_cost X Y epsilon 0
  = big_sum (length X) (fun i =>
      big_sum (length Y) (fun j => K X Y epsilon i j * C X Y i j)).
Proof.
  unfold transport_cost, contract. cbn [scalings fst snd].
  apply big_sum_ext. intros i Hi. apply big_sum_ext. intros j Hj.
  rewrite !nth_repeat_lt by assumption. ring.
Qed.

End Bounds.

(** ** The routine against the specification *)

Section Refines.
Local Open Scope R_scope.
Import Spec.

(** The routine returns the specification's scalar whenever it has run a
    round or the two sets have the same size. *)
Lemma sinkhorn_loss_refines (m n d : nat) (X Y : matrix R) (epsilon : R) (L : Z) :
  rect m d X -> rect n d Y -> (1 <= m)%nat -> (1 <= n)%nat ->
  (1 <= L)%Z \/ m = n ->
  sinkhorn_loss X Y epsilon L
  = Some [[transport_cost X Y epsilon (Z.to_nat L)]].
Proof.
  intros HX HY Hm Hn HL.
  rewrite (sinkhorn_loss_closed epsilon L HX HY Hm Hn HL).
  f_equal. f_equal. f_equal. unfold transport_cost.
  assert (Hr : rounds (sinkhorn_kernel (cost_matrix X Y) epsilon) (Z.to_nat L)
                      (repeat sone n, repeat sone n)
               = scalings X Y epsilon (Z.to_nat L)).
  { destruct (Z.to_nat L) as [|k] eqn:E.
    - apply (rounds_zero_square m n d X Y epsilon HX HY).
      destruct HL; [lia | assumption].
    - apply (rounds_scalings m n d X Y epsilon HX HY Hm Hn). }
  rewrite Hr.
  pose proof (scalings_lengths m n d X Y epsilon HX HY (Z.to_nat L)) as [Hu Hv].
  destruct (scalings X Y epsilon (Z.to_nat L)) as [u v].
  apply (contraction_contract m n d X Y epsilon HX HY Hm Hn u v Hu Hv).
Qed.

(** The specification's first scenario: one point against itself costs
    nothing. *)
Example sinkhorn_loss_identical_point :
  sinkhorn_loss [[0; 0]] [[0; 0]] 0.5 10 = Some [[0]].
Proof.
  rewrite (sinkhorn_loss_refines 1 1 2 [[0; 0]] [[0; 0]] 0.5 10).
  - do 3 f_equal. unfold transport_cost, contract, big_sum. cbn [length seq map fold_right].
    replace (C [[0; 0]] [[0; 0]] 0 0) with 0; [ring|].
    unfold C, big_sum, entry. cbn. ring.
  - split; [reflexivity | repeat constructor].
  - split; [reflexivity | repeat constructor].
  - lia.
  - lia.
  - left. lia.
Qed.

(** Without a round and with sets of one size the routine returns the sum
    of the cost-weighted kernel. *)
Lemma sinkhorn_loss_no_round_square (m d : nat) (X Y : matrix R) (epsilon : R) :
  rect m d X -> rect m d Y -> (1 <= m)%nat ->
  sinkhorn_loss X Y epsilon 0
  = Some [[big_sum m (fun i => big_sum m (fun j =>
             K X Y epsilon i j * C X Y i j))]].
Proof.
  intros HX HY Hm.
  rewrite (sinkhorn_loss_refines m m d X Y epsilon 0 HX HY Hm Hm (or_intror eq_refl)).
  change (Z.to_nat 0) with 0%nat. rewrite transport_cost_no_round.
  now rewrite (rect_length HX), (rect_length HY).
Qed.

End Refines.


(** * The claims *)

Section Claims.
Local Open Scope R_scope.
Import Spec.

(** C1. For point sets [X] (m rows) and [Y] (n rows) of one dimension
    [d], with [m >= 1], [n >= 1], [epsilon > 0] and a positive [L],
    [sinkhorn_loss] returns the 1 x 1 tensor holding
    [sum_{i,j} K[i][j] * C[i][j] * v[j] * u[i]], where [C] is the squared
    distance, [K = exp(-C/epsilon)], and [u], [v] come from all-ones
    vectors by exactly [L] rounds of [u[i] = 1/(sum_j K[i][j] v[j] + 1e-12)]
    then [v[j] = 1/(sum_i K[i][j] u[i] + 1e-12)]. *)
Theorem sinkhorn_loss_is_transport_cost
        (m n d : nat) (X Y : matrix R) (epsilon : R) (L : Z) :
  rect m d X -> rect n d Y -> (1 <= m)%nat -> (1 <= n)%nat ->
  0 < epsilon -> (1 <= L)%Z ->
  sinkhorn_loss X Y epsilon L
  = Some [[transport_cost X Y epsilon (Z.to_nat L)]].
Proof.
  intros HX HY Hm Hn _ HL.
  apply (sinkhorn_loss_refines m n d X Y epsilon L HX HY Hm Hn).
  left. exact HL.
Qed.

Lemma sinkhorn_loss_is_transport_cost_witness :
  sinkhorn_loss [[0; 0]; [1; 0]] [[0; 1]] (1 / 2) 2
  = Some [[transport_cost [[0; 0]; [1; 0]] [[0; 1]] (1 / 2) 2]].
Proof.
  apply (sinkhorn_loss_is_transport_cost 2 1 2).
  - split; [reflexivity | repeat constructor].
  - split; [reflexivity | repeat constructor].
  - lia.
  - lia.
  - lra.
  - lia.
Defined.

(** C2, at an input with [m <> n]: the initial [a] is sized by the second
    set, so for two points against one it has one row, not two. *)
Theorem sinkhorn_init_sized_by_second_set :
  sinkhorn_init (T := R) [[0]] = ([[1]], [[1]])
  /\ length (fst (sinkhorn_init (T := R) [[0]])) <> length [[0]; [1]].
Proof. split; [reflexivity | cbn; lia]. Qed.

(** C3, at an input with [m <> n]: without a round the final product
    multiplies a 1 x 2 matrix by the 1 x 1 initial [a] and is rejected. *)
Theorem sinkhorn_loss_no_round_rejected :
  sinkhorn_loss [[0]; [1]] [[0]] 0.5 0 = None.
Proof. reflexivity. Qed.

(** C4, in exact arithmetic. On well-formed point sets of real numbers,
    with [epsilon > 0] and [L >= 0], whatever [sinkhorn_loss] returns is a
    single scalar that is at least 0; and it does return one as soon as
    [L >= 1] or [m = n].  (In binary32 the scalar can be NaN when a squared
    distance overflows.) *)
Theorem sinkhorn_loss_nonneg
        (m n d : nat) (X Y : matrix R) (epsilon : R) (L : Z) :
  rect m d X -> rect n d Y -> (1 <= m)%nat -> (1 <= n)%nat ->
  0 < epsilon -> (0 <= L)%Z ->
  (forall r, sinkhorn_loss X Y epsilon L = Some r ->
             exists s, r = [[s]] /\ 0 <= s)
  /\ ((1 <= L)%Z \/ m = n ->
      exists s, sinkhorn_loss X Y epsilon L = Some [[s]] /\ 0 <= s).
Proof.
  intros HX HY Hm Hn _ HL.
  assert (Hret : (1 <= L)%Z \/ m = n ->
                 exists s, sinkhorn_loss X Y epsilon L = Some [[s]] /\ 0 <= s).
  { intros Hc. exists (transport_cost X Y epsilon (Z.to_nat L)). split.
    - apply (sinkhorn_loss_refines m n d X Y epsilon L HX HY Hm Hn Hc).
    - apply transport_cost_nonneg. }
  split; [|exact Hret].
  intros r Hr.
  destruct (Z_le_gt_dec 1 L) as [H1 | H0].
  - destruct (Hret (or_introl H1)) as [s [Hs Hpos]].
    exists s. split; [congruence | exact Hpos].
  - destruct (Nat.eq_dec m n) as [E | NE].
    + destruct (Hret (or_intror E)) as [s [Hs Hpos]].
      exists s. split; [congruence | exact Hpos].
    + rewrite (sinkhorn_loss_no_round_mismatch epsilon L HX HY Hm Hn) in Hr
        by (lia || exact NE).
      discriminate.
Qed.

Lemma sinkhorn_loss_nonneg_witness :
  exists s, sinkhorn_loss [[0; 0]; [1; 0]] [[0; 1]] (1 / 2) 3 = Some [[s]]
            /\ 0 <= s.
Proof.
  apply (sinkhorn_loss_nonneg 2 1 2 [[0; 0]; [1; 0]] [[0; 1]] (1 / 2) 3).
  - split; [reflexivity | repeat constructor].
  - split; [reflexivity | repeat constructor].
  - lia.
  - lia.
  - lra.
  - lia.
  - left. lia.
Defined.



End Claims.

Section LoopClaims.
Context {T : Type} `{Scalar T}.


(** C9. For [L >= 1] the result does not depend on the initial [a]: it is
    overwritten in the first round before it is read.  On well-formed
    point sets, also with [m <> n], the loop then ends with [a] of length
    [m] and [b] of length [n], and the routine returns a scalar. *)
Theorem sinkhorn_loss_independent_of_initial_a
        (m n d : nat) (X Y : matrix T) (epsilon : T) (L : Z) :
  rect m d X -> rect n d Y -> (1 <= m)%nat -> (1 <= n)%nat -> (1 <= L)%Z ->
  (forall a0 a0' b0,
      sinkhorn_from X Y epsilon L (a0, b0)
      = sinkhorn_from X Y epsilon L (a0', b0))
  /\ exists c,
      sinkhorn_cost X Y = Some c
      /\ forall a0, exists u v s,
           for_each (range L) (sinkhorn_round (sinkhorn_kernel c epsilon))
                    (a0, snd (sinkhorn_init Y))
           = Some (col u, col v)
           /\ length u = m /\ length v = n
           /\ sinkhorn_from X Y epsilon L (a0, snd (sinkhorn_init Y))
              = Some [[s]]
           /\ sinkhorn_loss X Y epsilon L = Some [[s]].
Proof.
  intros HX HY Hm Hn HL.
  destruct (range_pos L HL) as [l [ls Hrange]].
  assert (Hne : range L <> []) by (rewrite Hrange; discriminate).
  assert (Hind : forall a0 a0' b0,
             sinkhorn_from X Y epsilon L (a0, b0)
             = sinkhorn_from X Y epsilon L (a0', b0)).
  { intros a0 a0' b0. unfold sinkhorn_from.
    destruct (sinkhorn_cost X Y) as [c|]; [|reflexivity]. cbn [bind].
    now rewrite (for_each_first_a_irrelevant _ (range L) a0 a0' b0 Hne). }
  split; [exact Hind|].
  exists (cost_matrix X Y).
  split; [apply (sinkhorn_cost_closed HX HY)|].
  intros a0.
  pose proof (kernel_rect epsilon (cost_matrix_rect HX HY)) as HK.
  set (K := sinkhorn_kernel (cost_matrix X Y) epsilon) in *.
  set (uv := rounds K (Z.to_nat L) (repeat sone n, repeat sone n)).
  assert (Hlen : length (fst uv) = m /\ length (snd uv) = n)
    by (apply (rounds_lengths (Z.to_nat L) _ HK Hm); lia).
  exists (fst uv), (snd uv), (contraction K (cost_matrix X Y) uv).
  rewrite sinkhorn_init_col, (rect_length HY). cbn [snd].
  split.
  { rewrite (for_each_first_a_irrelevant K (range L) a0
               (col (repeat sone n)) (col (repeat sone n)) Hne).
    rewrite (for_each_rounds (range L) _ _ HK Hm Hn (repeat_length _ _)).
    now rewrite range_length. }
  split; [apply Hlen|]. split; [apply Hlen|].
  assert (Hloss : sinkhorn_loss X Y epsilon L
                  = Some [[contraction K (cost_matrix X Y) uv]])
    by (apply (sinkhorn_loss_closed epsilon L HX HY Hm Hn); left; exact HL).
  split; [|exact Hloss].
  rewrite (Hind a0 (col (repeat sone n)) (col (repeat sone n))).
  rewrite <- Hloss. unfold sinkhorn_loss.
  now rewrite sinkhorn_init_col, (rect_length HY).
Qed.

End LoopClaims.

Section LoopClaimsWitnesses.
Local Open Scope R_scope.


Lemma sinkhorn_loss_independent_of_initial_a_witness :
  (forall a0 a0' b0,
      sinkhorn_from [[0]; [1]] [[0]] 0.5 1 (a0, b0)
      = sinkhorn_from [[0]; [1]] [[0]] 0.5 1 (a0', b0))
  /\ exists c,
      sinkhorn_cost [[0]; [1]] [[0]] = Some c
      /\ forall a0, exists u v s,
           for_each (range 1) (sinkhorn_round (sinkhorn_kernel c 0.5))
                    (a0, snd (sinkhorn_init [[0]]))
           = Some (col u, col v)
           /\ length u = 2%nat /\ length v = 1%nat
           /\ sinkhorn_from [[0]; [1]] [[0]] 0.5 1 (a0, snd (sinkhorn_init [[0]]))
              = Some [[s]]
           /\ sinkhorn_loss [[0]; [1]] [[0]] 0.5 1 = Some [[s]].
Proof.
  apply (sinkhorn_loss_independent_of_initial_a 2 1 1 [[0]; [1]] [[0]] 0.5 1).
  - split; [reflexivity | repeat constructor].
  - split; [reflexivity | repeat constructor].
  - lia.
  - lia.
  - lia.
Defined.

End LoopClaimsWitnesses.

Section MoreClaims.
Local Open Scope R_scope.
Import Spec.

(** C8, as the routine has it.  On well-formed point sets, with
    [epsilon > 0] and [L >= 1], no operation of [sinkhorn_loss] is
    rejected and it returns one scalar; in exact arithmetic the costs are
    at least 0, the kernel entries lie in (0, 1], every entry of the
    final [a] and [b] is the reciprocal of a sum that is at least the
    floor, so lies in (0, 1/1e-12], and the scalar is at least 0. *)
Theorem sinkhorn_loss_runs_without_error
        (m n d : nat) (X Y : matrix R) (epsilon : R) (L : Z) :
  rect m d X -> rect n d Y -> (1 <= m)%nat -> (1 <= n)%nat ->
  0 < epsilon -> (1 <= L)%Z ->
  exists c a b s,
    sinkhorn_cost X Y = Some c
    /\ for_each (range L) (sinkhorn_round (sinkhorn_kernel c epsilon))
                (sinkhorn_init Y) = Some (a, b)
    /\ sinkhorn_loss X Y epsilon L = Some [[s]]
    /\ Forall (Forall (fun x => 0 <= x)) c
    /\ Forall (Forall (fun x => 0 < x <= 1)) (sinkhorn_kernel c epsilon)
    /\ Forall (Forall (fun x => 0 < x <= 1 / delta)) a
    /\ Forall (Forall (fun x => 0 < x <= 1 / delta)) b
    /\ 0 <= s.
Proof.
  intros HX HY Hm Hn He HL.
  pose proof (kernel_rect epsilon (cost_matrix_rect HX HY)) as HK.
  destruct (Z.to_nat L) as [|k] eqn:Ek; [lia|].
  pose proof (scalings_in_range X Y epsilon k) as [Hu Hv].
  exists (cost_matrix X Y),
         (col (fst (scalings X Y epsilon (S k)))),
         (col (snd (scalings X Y epsilon (S k)))),
         (transport_cost X Y epsilon (S k)).
  split; [apply (sinkhorn_cost_closed HX HY)|].
  split.
  { rewrite sinkhorn_init_col, (rect_length HY).
    rewrite (for_each_rounds (range L) _ _ HK Hm Hn (repeat_length _ _)).
    rewrite range_length, Ek.
    now rewrite (rounds_scalings m n d X Y epsilon HX HY Hm Hn k). }
  split.
  { rewrite <- Ek.
    apply (sinkhorn_loss_refines m n d X Y epsilon L HX HY Hm Hn).
    left. exact HL. }
  split; [apply cost_matrix_nonneg|].
  split; [apply kernel_unit_interval; [exact He | apply cost_matrix_nonneg]|].
  assert (Hcol : forall v, Forall in_range v ->
                   Forall (Forall (fun x => 0 < x <= 1 / delta)) (col v)).
  { intros v Hrange. unfold col. apply Forall_map.
    eapply Forall_impl; [|exact Hrange]. intros x Hx.
    constructor; [exact Hx | constructor]. }
  split; [apply Hcol, Hu|].
  split; [apply Hcol, Hv|].
  apply transport_cost_nonneg.
Qed.

Lemma sinkhorn_loss_runs_without_error_witness :
  exists c a b s,
    sinkhorn_cost [[0; 0]; [1; 0]] [[0; 1]] = Some c
    /\ for_each (range 2) (sinkhorn_round (sinkhorn_kernel c 0.5))
                (sinkhorn_init [[0; 1]]) = Some (a, b)
    /\ sinkhorn_loss [[0; 0]; [1; 0]] [[0; 1]] 0.5 2 = Some [[s]]
    /\ Forall (Forall (fun x => 0 <= x)) c
    /\ Forall (Forall (fun x => 0 < x <= 1)) (sinkhorn_kernel c 0.5)
    /\ Forall (Forall (fun x => 0 < x <= 1 / delta)) a
    /\ Forall (Forall (fun x => 0 < x <= 1 / delta)) b
    /\ 0 <= s.
Proof.
  apply (sinkhorn_loss_runs_without_error 2 1 2).
  - split; [reflexivity | repeat constructor].
  - split; [reflexivity | repeat constructor].
  - lia.
  - lia.
  - lra.
  - lia.
Defined.

(** C10. The signature's defaults are [epsilon = 0.5] and [L = 10]: a
    call that passes only the two point sets is the call with these
    values, so on well-formed point sets it returns the transport cost
    at temperature 0.5 after exactly 10 rounds, and the notebook's
    objective is [2 S(X, G) - S(X, X) - S(G, G)] for that [S]. *)
Theorem sinkhorn_loss_defaults
        (m n d : nat) (X G : matrix R) :
  rect m d X -> rect n d G -> (1 <= m)%nat -> (1 <= n)%nat ->
  default_epsilon (T := R) = 0.5
  /\ default_L = 10%Z
  /\ call_sinkhorn_loss X G None None = sinkhorn_loss X G 0.5 10
  /\ call_sinkhorn_loss X G None None
     = Some [[transport_cost X G 0.5 10]]
  /\ (exists c ab,
        sinkhorn_cost X G = Some c
        /\ for_each (range default_L)
                    (ticking (sinkhorn_round (sinkhorn_kernel c default_epsilon)))
                    (sinkhorn_init G, 0%nat)
           = Some (ab, 10%nat))
  /\ loss X G
     = Some (2 * transport_cost X G 0.5 10
             - transport_cost X X 0.5 10
             - transport_cost G G 0.5 10).
Proof.
  intros HX HG Hm Hn.
  assert (HXG : call_sinkhorn_loss X G None None
                = Some [[transport_cost X G 0.5 10]]).
  { apply (sinkhorn_loss_refines m n d X G 0.5 10 HX HG Hm Hn). left. lia. }
  assert (HXX : call_sinkhorn_loss X X None None
                = Some [[transport_cost X X 0.5 10]]).
  { apply (sinkhorn_loss_refines m m d X X 0.5 10 HX HX Hm Hm). left. lia. }
  assert (HGG : call_sinkhorn_loss G G None None
                = Some [[transport_cost G G 0.5 10]]).
  { apply (sinkhorn_loss_refines n n d G G 0.5 10 HG HG Hn Hn). left. lia. }
  split; [reflexivity|]. split; [reflexivity|]. split; [reflexivity|].
  split; [exact HXG|].
  split.
  { eexists. eexists. split; [apply (sinkhorn_cost_closed HX HG)|].
    apply (sinkhorn_loop_ticks default_epsilon default_L HX HG Hm Hn). }
  unfold loss. rewrite HXG, HXX, HGG. cbn [bind].
  cbn. f_equal. lra.
Qed.

Lemma sinkhorn_loss_defaults_witness :
  default_epsilon (T := R) = 0.5
  /\ default_L = 10%Z
  /\ call_sinkhorn_loss [[0; 0]; [1; 0]] [[0; 1]] None None
     = sinkhorn_loss [[0; 0]; [1; 0]] [[0; 1]] 0.5 10
  /\ call_sinkhorn_loss [[0; 0]; [1; 0]] [[0; 1]] None None
     = Some [[transport_cost [[0; 0]; [1; 0]] [[0; 1]] 0.5 10]]
  /\ (exists c ab,
        sinkhorn_cost [[0; 0]; [1; 0]] [[0; 1]] = Some c
        /\ for_each (range default_L)
                    (ticking (sinkhorn_round (sinkhorn_kernel c default_epsilon)))
                    (sinkhorn_init [[0; 1]], 0%nat)
           = Some (ab, 10%nat))
  /\ loss [[0; 0]; [1; 0]] [[0; 1]]
     = Some (2 * transport_cost [[0; 0]; [1; 0]] [[0; 1]] 0.5 10
             - transport_cost [[0; 0]; [1; 0]] [[0; 0]; [1; 0]] 0.5 10
             - transport_cost [[0; 1]] [[0; 1]] 0.5 10).
Proof.
  apply (sinkhorn_loss_defaults 2 1 2).
  - split; [reflexivity | repeat constructor].
  - split; [reflexivity | repeat constructor].
  - lia.
  - lia.
Defined.

End MoreClaims.

(** C8, as stated, fails in the arithmetic of the code: in binary32 the
    squared distance of two finite points can overflow.  The cost matrix of
    [2^64] against [0] holds [+infinity]. *)
Lemma float32_cost_overflows :
  ~ (forall X Y c : matrix Float32.float32,
        Float32.all_finite X = true -> Float32.all_finite Y = true ->
        sinkhorn_cost (H := Float32.float32_arith) X Y = Some c ->
        Float32.all_finite c = true).
Proof.
  intros Hall.
  assert (E : Float32.all_finite [[S754_infinity false]] = true).
  { apply (Hall [[Float32.of_Z_pow2 1 64]] [[S754_zero false]]); reflexivity. }
  discriminate E.
Qed.

(** * Further properties of the notebook's code *)

(** ** [sinkhorn_loss]: feature dimensions *)

Lemma mapM_fails {A B : Type} (f : A -> option B) (xs : list A) (x : A) :
  In x xs -> f x = None -> mapM f xs = None.
Proof.
  induction xs as [|x' xs IH]; intros Hin Hf; [contradiction|].
  simpl. destruct Hin as [-> | Hin].
  - now rewrite Hf.
  - destruct (f x'); [|reflexivity]. simpl. now rewrite (IH Hin Hf).
Qed.

(** Broadcasting fails as soon as the combining function fails on every
    pair, whichever of its three branches is taken. *)
Lemma broadcast_fails {A B C : Type} (f : A -> B -> option C)
      (xs : list A) (ys : list B) :
  xs <> [] -> ys <> [] ->
  (forall x y, In x xs -> In y ys -> f x y = None) ->
  broadcast f xs ys = None.
Proof.
  intros Hxs Hys Hf.
  destruct xs as [|x xs]; [congruence|]. destruct ys as [|y ys]; [congruence|].
  assert (Hxy : f x y = None) by (apply Hf; left; reflexivity).
  unfold broadcast. destruct (length (x :: xs) =? length (y :: ys)).
  - simpl. now rewrite Hxy.
  - destruct xs as [|x' xs].
    + apply (mapM_fails _ _ y); [left; reflexivity | exact Hxy].
    + destruct ys as [|y' ys]; [|reflexivity].
      apply (mapM_fails _ _ x); [left; reflexivity | exact Hxy].
Qed.

Lemma broadcast_incompatible {A B C : Type} (f : A -> B -> option C)
      (xs : list A) (ys : list B) :
  length xs <> length ys -> length xs <> 1%nat -> length ys <> 1%nat ->
  broadcast f xs ys = None.
Proof.
  intros Hne Hx Hy. unfold broadcast.
  destruct (length xs =? length ys) eqn:E; [apply Nat.eqb_eq in E; contradiction|].
  destruct xs as [|x [|x' xs]]; destruct ys as [|y [|y' ys]];
    simpl in *; try reflexivity; congruence.
Qed.

Section FeatureDimensions.
Context {T : Type} `{Scalar T}.

(** The cost matrix whenever the rows of [X] and [Y] broadcast against each
    other: [g x y] is the difference of two rows. *)
Lemma sinkhorn_cost_broadcast (g : vector T -> vector T -> vector T)
      (X Y : matrix T) :
  (forall x y, In x X -> In y Y ->
     broadcast (fun a b => Some (ssub a b)) x y = Some (g x y)) ->
  sinkhorn_cost X Y
  = Some (map (fun x => map (fun y => vsum (map (fun t => smul t t) (g x y))) Y) X).
Proof.
  intros Hg. unfold sinkhorn_cost, tf_sub3, expand_dims_1, expand_dims_0.
  rewrite (broadcast_right
             (broadcast (broadcast (fun x y => Some (ssub x y))))
             (fun (x : list (list T)) (Ys : list (list T)) =>
                map (fun y => g (hd [] x) y) Ys)).
  - simpl. f_equal. unfold reduce_sum_last, tf_square, map3d, map2d.
    rewrite !map_map. apply map_ext. intros x. simpl.
    rewrite !map_map. reflexivity.
  - intros x Hx. apply in_map_iff in Hx. destruct Hx as [r [<- Hr]].
    rewrite (broadcast_left
               (broadcast (fun x y => Some (ssub x y))) g).
    + reflexivity.
    + intros y Hy. apply Hg; assumption.
Qed.

Lemma combine_repeat_r (f : T -> T -> T) (x : vector T) (y0 : T) :
  map (fun p => f (fst p) (snd p)) (combine x (repeat y0 (length x)))
  = map (fun a => f a y0) x.
Proof. induction x as [|a x IH]; simpl; [reflexivity | now rewrite IH]. Qed.

(** X1. Point sets whose feature dimensions differ, neither being 1, are
    rejected: the subtraction cannot broadcast, whatever [epsilon] and [L]
    are. *)
Theorem sinkhorn_loss_dimension_mismatch
        (m n d d' : nat) (X Y : matrix T) (epsilon : T) (L : Z) :
  rect m d X -> rect n d' Y -> (1 <= m)%nat -> (1 <= n)%nat ->
  d <> d' -> d <> 1%nat -> d' <> 1%nat ->
  sinkhorn_cost X Y = None /\ sinkhorn_loss X Y epsilon L = None.
Proof.
  intros HX HY Hm Hn Hdd Hd Hd'.
  assert (Hc : sinkhorn_cost X Y = None).
  { unfold sinkhorn_cost, tf_sub3, expand_dims_1, expand_dims_0. cbv zeta.
    rewrite broadcast_fails; [reflexivity | | discriminate |].
    - destruct X; [destruct HX as [HX _]; simpl in HX; lia | discriminate].
    - intros x Ys Hx [<- | []]. apply in_map_iff in Hx.
      destruct Hx as [r [<- Hr]].
      apply broadcast_fails; [discriminate | |].
      + destruct Y; [destruct HY as [HY _]; simpl in HY; lia | discriminate].
      + intros r' y [<- | []] Hy. apply broadcast_incompatible.
        * now rewrite (rect_row HX Hr), (rect_row HY Hy).
        * now rewrite (rect_row HX Hr).
        * now rewrite (rect_row HY Hy). }
  split; [exact Hc|].
  unfold sinkhorn_loss, sinkhorn_from. now rewrite Hc.
Qed.

(** X2. A second set with a single feature is not rejected against a first
    set of any dimension [d]: its one coordinate is silently repeated [d]
    times, and the costs are those of the widened set. *)
Theorem sinkhorn_cost_single_feature_broadcast
        (m n d : nat) (X Y : matrix T) :
  rect m d X -> rect n 1 Y ->
  sinkhorn_cost X Y
  = sinkhorn_cost X (map (fun y => repeat (hd szero y) d) Y)
  /\ sinkhorn_cost X Y
     = Some (map (fun x => map (fun y =>
               vsum (map (fun a => smul (ssub a (hd szero y)) (ssub a (hd szero y))) x))
               Y) X).
Proof.
  intros HX HY.
  assert (HL : sinkhorn_cost X Y
               = Some (map (fun x => map (fun y =>
                   vsum (map (fun a => smul (ssub a (hd szero y)) (ssub a (hd szero y))) x))
                   Y) X)).
  { rewrite (sinkhorn_cost_broadcast
               (fun x y => map (fun a => ssub a (hd szero y)) x)).
    - f_equal. apply map_ext. intros x. apply map_ext. intros y.
      now rewrite map_map.
    - intros x y Hx Hy. pose proof (rect_row HY Hy) as Hy1.
      destruct y as [|y0 [|? ?]]; try discriminate. simpl.
      apply (broadcast_right (fun a b => Some (ssub a b)) (fun a b => ssub a b)).
      intros a _. reflexivity. }
  split; [|exact HL].
  rewrite HL.
  assert (HY' : rect n d (map (fun y => repeat (hd szero y) d) Y)).
  { split.
    - rewrite length_map. apply (rect_length HY).
    - apply Forall_map, Forall_forall. intros y _. apply repeat_length. }
  rewrite (sinkhorn_cost_closed HX HY'). f_equal. unfold cost_matrix.
  apply map_ext_in. intros x Hx. rewrite map_map. apply map_ext. intros y.
  unfold sqdist. rewrite <- (rect_row HX Hx).
  now rewrite (combine_repeat_r (fun a b => smul (ssub a b) (ssub a b))).
Qed.

End FeatureDimensions.

Section FeatureDimensionsWitnesses.
Local Open Scope R_scope.

Lemma sinkhorn_loss_dimension_mismatch_witness :
  sinkhorn_cost [[0; 0]] [[0; 0; 0]] = None
  /\ sinkhorn_loss [[0; 0]] [[0; 0; 0]] 0.5 10 = None.
Proof.
  apply (sinkhorn_loss_dimension_mismatch 1 1 2 3).
  - split; [reflexivity | repeat constructor].
  - split; [reflexivity | repeat constructor].
  - lia.
  - lia.
  - lia.
  - lia.
  - lia.
Defined.

Lemma sinkhorn_cost_single_feature_broadcast_witness :
  sinkhorn_cost [[0; 1]; [2; 3]] [[5]]
  = sinkhorn_cost [[0; 1]; [2; 3]] (map (fun y => repeat (hd szero y) 2) [[5]])
  /\ sinkhorn_cost [[0; 1]; [2; 3]] [[5]]
     = Some (map (fun x => map (fun y =>
               vsum (map (fun a => smul (ssub a (hd szero y)) (ssub a (hd szero y))) x))
               [[5]]) [[0; 1]; [2; 3]]).
Proof.
  apply (sinkhorn_cost_single_feature_broadcast 2 1 2).
  - split; [reflexivity | repeat constructor].
  - split; [reflexivity | repeat constructor].
Defined.

End FeatureDimensionsWitnesses.

(** ** [sinkhorn_loss]: the cost matrix and the scaling loop in exact
    arithmetic *)

Section CostAndMarginals.
Local Open Scope R_scope.
Import Spec.

Lemma sqdist_sym (x y : vector R) : sqdist x y = sqdist y x.
Proof.
  unfold sqdist. f_equal. revert y.
  induction x as [|a x IH]; intros [|b y]; simpl; try reflexivity.
  rewrite IH. f_equal. ring.
Qed.

Lemma sqdist_self (x : vector R) : sqdist x x = 0.
Proof.
  unfold sqdist. rewrite vsum_fold_right.
  induction x as [|a x IH]; [reflexivity|].
  cbn [combine map fold_right fst snd]. rewrite IH. cbn. ring.
Qed.

Lemma cost_matrix_transpose (m n d : nat) (X Y : matrix R) :
  rect m d X -> rect n d Y -> (1 <= m)%nat ->
  cost_matrix Y X = tf_transpose szero (cost_matrix X Y).
Proof.
  intros HX HY Hm. unfold tf_transpose.
  rewrite (rect_hd (cost_matrix_rect HX HY) Hm).
  unfold cost_matrix at 1.
  rewrite (map_seq_nth _ [] Y), (rect_length HY).
  apply map_ext_in. intros j Hj. apply in_seq in Hj.
  unfold cost_matrix. rewrite map_map. apply map_ext. intros x.
  rewrite (nth_map_in _ _ _ [] _) by (rewrite (rect_length HY); lia).
  apply sqdist_sym.
Qed.

(** X3. Swapping the two point sets transposes the cost matrix. *)
Theorem sinkhorn_cost_swap (m n d : nat) (X Y : matrix R) :
  rect m d X -> rect n d Y -> (1 <= m)%nat ->
  exists c, sinkhorn_cost X Y = Some c
            /\ sinkhorn_cost Y X = Some (tf_transpose szero c).
Proof.
  intros HX HY Hm. exists (cost_matrix X Y). split.
  - apply (sinkhorn_cost_closed HX HY).
  - rewrite (sinkhorn_cost_closed HY HX). f_equal.
    apply (cost_matrix_transpose m n d X Y HX HY Hm).
Qed.

Lemma sinkhorn_cost_swap_witness :
  exists c, sinkhorn_cost [[0; 0]; [1; 0]] [[0; 1]] = Some c
            /\ sinkhorn_cost [[0; 1]] [[0; 0]; [1; 0]] = Some (tf_transpose szero c).
Proof.
  apply (sinkhorn_cost_swap 2 1 2).
  - split; [reflexivity | repeat constructor].
  - split; [reflexivity | repeat constructor].
  - lia.
Defined.

(** X4. The cost matrix of a point set against itself is symmetric with a
    zero diagonal. *)
Theorem sinkhorn_cost_self (m d : nat) (X : matrix R) :
  rect m d X ->
  exists c, sinkhorn_cost X X = Some c
            /\ rect m m c
            /\ (forall i, (i < m)%nat -> entry c i i = 0)
            /\ (forall i j, (i < m)%nat -> (j < m)%nat -> entry c i j = entry c j i).
Proof.
  intros HX. exists (cost_matrix X X).
  split; [apply (sinkhorn_cost_closed HX HX)|].
  split; [apply (cost_matrix_rect HX HX)|].
  assert (He : forall i j, (i < m)%nat -> (j < m)%nat ->
             entry (cost_matrix X X) i j = sqdist (nth i X []) (nth j X [])).
  { intros i j Hi Hj. unfold entry, cost_matrix.
    rewrite (nth_map_in _ _ _ [] _) by (now rewrite (rect_length HX)).
    rewrite (nth_map_in _ _ _ [] _) by (now rewrite (rect_length HX)).
    reflexivity. }
  split.
  - intros i Hi. rewrite (He i i Hi Hi). apply sqdist_self.
  - intros i j Hi Hj. rewrite (He i j Hi Hj), (He j i Hj Hi). apply sqdist_sym.
Qed.

Lemma sinkhorn_cost_self_witness :
  exists c, sinkhorn_cost [[0; 0]; [1; 0]] [[0; 0]; [1; 0]] = Some c
            /\ rect 2 2 c
            /\ (forall i, (i < 2)%nat -> entry c i i = 0)
            /\ (forall i j, (i < 2)%nat -> (j < 2)%nat -> entry c i j = entry c j i).
Proof.
  apply (sinkhorn_cost_self 2 2).
  split; [reflexivity | repeat constructor].
Defined.

(** *** Sums *)







End CostAndMarginals.

Section LoopAndLossProperties.
Local Open Scope R_scope.
Import Spec.







(** The objective in closed form. *)
Lemma loss_closed (m n d : nat) (X G : matrix R) :
  rect m d X -> rect n d G -> (1 <= m)%nat -> (1 <= n)%nat ->
  loss X G
  = Some (2 * transport_cost X G 0.5 10
          - transport_cost X X 0.5 10
          - transport_cost G G 0.5 10).
Proof.
  intros HX HG Hm Hn.
  assert (HXG : call_sinkhorn_loss X G None None
                = Some [[transport_cost X G 0.5 10]]).
  { apply (sinkhorn_loss_refines m n d X G 0.5 10 HX HG Hm Hn). left. lia. }
  assert (HXX : call_sinkhorn_loss X X None None
                = Some [[transport_cost X X 0.5 10]]).
  { apply (sinkhorn_loss_refines m m d X X 0.5 10 HX HX Hm Hm). left. lia. }
  assert (HGG : call_sinkhorn_loss G G None None
                = Some [[transport_cost G G 0.5 10]]).
  { apply (sinkhorn_loss_refines n n d G G 0.5 10 HG HG Hn Hn). left. lia. }
  unfold loss. rewrite HXG, HXX, HGG. cbn [bind].
  cbn. f_equal. lra.
Qed.

(** X7. The objective of a batch against itself is exactly zero. *)
Theorem loss_self_zero (m d : nat) (X : matrix R) :
  rect m d X -> (1 <= m)%nat -> loss X X = Some 0.
Proof.
  intros HX Hm. rewrite (loss_closed m m d X X HX HX Hm Hm). f_equal. lra.
Qed.

Lemma loss_self_zero_witness : loss [[0; 0]; [1; 0]] [[0; 0]; [1; 0]] = Some 0.
Proof.
  apply (loss_self_zero 2 2).
  - split; [reflexivity | repeat constructor].
  - lia.
Defined.

End LoopAndLossProperties.

(** ** [neural_net] and [init_neural_net] *)

Section NeuralNetShapes.
Context {T : Type} `{Arith T} `{Relu T}.

Lemma tf_matmul_rect (m k p : nat) (A B : matrix T) :
  rect m k A -> rect k p B -> (1 <= k)%nat ->
  exists M, tf_matmul A B = Some M /\ rect m p M.
Proof.
  intros HA HB Hk. unfold tf_matmul.
  assert (Hrows : Forall (fun r => length r = length B) A).
  { rewrite (rect_length HB). apply HA. }
  rewrite (forallb_row_lengths Hrows). eexists. split; [reflexivity|].
  split.
  - rewrite length_map. apply (rect_length HA).
  - apply Forall_map, Forall_forall. intros r _.
    unfold tf_transpose. rewrite !length_map, length_seq.
    apply (rect_hd HB Hk).
Qed.

Lemma tf_matmul_rejects (m k k' : nat) (A B : matrix T) :
  rect m k A -> (1 <= m)%nat -> length B = k' -> k <> k' ->
  tf_matmul A B = None.
Proof.
  intros HA Hm HB Hne. unfold tf_matmul.
  destruct A as [|r A]; [destruct HA as [HA _]; simpl in HA; lia|].
  simpl. assert (Hr : length r = k) by (apply (rect_row HA); left; reflexivity).
  destruct (length r =? length B) eqn:E; [|reflexivity].
  apply Nat.eqb_eq in E. congruence.
Qed.

Lemma tf_add_bias_rect (m p : nat) (M : matrix T) (b : vector T) :
  rect m p M -> length b = p ->
  exists M', tf_add_bias M b = Some M' /\ rect m p M'.
Proof.
  intros HM Hb. unfold tf_add_bias.
  rewrite (broadcast_right
             (broadcast (fun x y => Some (sadd x y)))
             (fun r b => map (fun q => sadd (fst q) (snd q)) (combine r b))).
  - eexists. split; [reflexivity|]. split.
    + rewrite length_map. apply (rect_length HM).
    + apply Forall_map, Forall_forall. intros r Hr.
      rewrite length_map, length_combine, (rect_row HM Hr), Hb. lia.
  - intros r Hr.
    apply (broadcast_same (fun x y => Some (sadd x y)) (fun x y => sadd x y)).
    + now rewrite (rect_row HM Hr).
    + intros q _. reflexivity.
Qed.

Lemma hidden_layers_shape (m : nat) (ws : list (matrix T)) :
  forall (bs : list (vector T)) (d e : nat) (h : list (matrix T)),
    net_shape d ws bs e -> rect m d (last h []) ->
    exists h', hidden_layers (combine ws bs) h = Some h' /\ rect m e (last h' []).
Proof.
  induction ws as [|w ws IH]; intros [|b bs] d e h Hnet Hh; simpl in Hnet;
    try contradiction.
  - subst e. exists h. split; [reflexivity | exact Hh].
  - destruct Hnet as [Hd [e1 [Hw [Hb Hnet]]]].
    destruct (tf_matmul_rect m d e1 _ w Hh Hw Hd) as [M [HM HMr]].
    destruct (tf_add_bias_rect m e1 M b HMr Hb) as [z [Hz Hzr]].
    cbn [combine hidden_layers]. rewrite HM. cbn [bind]. rewrite Hz. cbn [bind].
    apply (IH bs e1 e).
    + exact Hnet.
    + rewrite last_last. apply rect_map2d, Hzr.
Qed.

Lemma net_shape_snoc (ws : list (matrix T)) :
  forall (bs : list (vector T)) (w : matrix T) (b : vector T) (d e : nat),
    net_shape d (ws ++ [w]) (bs ++ [b]) e ->
    exists e1, net_shape d ws bs e1 /\ (1 <= e1)%nat /\ rect e1 e w /\ length b = e.
Proof.
  induction ws as [|w0 ws IH]; intros [|b0 bs] w b d e Hnet; simpl in Hnet.
  - destruct Hnet as [Hd [e1 [Hw [Hb He]]]]. simpl in He. subst e.
    exists d. split; [reflexivity|]. split; [exact Hd|].
    split; [exact Hw | exact Hb].
  - destruct Hnet as [_ [e1 [_ [_ Hn]]]]. destruct bs; simpl in Hn; contradiction.
  - destruct Hnet as [_ [e1 [_ [_ Hn]]]]. destruct ws; simpl in Hn; contradiction.
  - destruct Hnet as [Hd [e1 [Hw [Hb Hn]]]].
    destruct (IH bs w b e1 e Hn) as [e2 [Hn2 [He2 [Hw2 Hb2]]]].
    exists e2. split; [|split; [exact He2 | split; [exact Hw2 | exact Hb2]]].
    simpl. split; [exact Hd|]. exists e1.
    split; [exact Hw | split; [exact Hb | exact Hn2]].
Qed.

Lemma net_shape_lengths (ws : list (matrix T)) :
  forall (bs : list (vector T)) (d e : nat),
    net_shape d ws bs e -> length bs = length ws.
Proof.
  induction ws as [|w ws IH]; intros [|b bs] d e Hnet; simpl in Hnet;
    try contradiction; [reflexivity|].
  destruct Hnet as [_ [e1 [_ [_ Hn]]]]. simpl. f_equal. apply (IH bs e1 e Hn).
Qed.

Lemma py_last_snoc {A : Type} (l : list A) (a : A) : py_last (l ++ [a]) = Some a.
Proof.
  destruct l as [|x l]; [reflexivity|].
  simpl. f_equal. apply last_last.
Qed.

Lemma neural_net_shape_aux (m d e : nat) (X : matrix T) (p : params T) :
  net_shape d (params_w p) (params_b p) e -> params_w p <> [] ->
  rect m d X ->
  exists out, neural_net X p = Some out /\ rect m e out.
Proof.
  intros Hnet Hne HX. destruct p as [ws bs]. simpl in *.
  destruct (exists_last Hne) as [ws0 [w Hws]]. subst ws.
  assert (Hbs : bs <> []).
  { pose proof (net_shape_lengths _ _ _ _ Hnet) as Hl.
    rewrite length_app in Hl. simpl in Hl. destruct bs; [simpl in Hl; lia | discriminate]. }
  destruct (exists_last Hbs) as [bs0 [b Hb]]. subst bs.
  destruct (net_shape_snoc ws0 bs0 w b d e Hnet) as [e1 [Hn0 [He1 [Hw Hlb]]]].
  unfold neural_net. cbn [params_w params_b].
  rewrite !removelast_last, !py_last_snoc.
  destruct (hidden_layers_shape m ws0 bs0 d e1 [X] Hn0 HX) as [h' [Hh' Hlast]].
  rewrite Hh'. cbn [bind].
  destruct (tf_matmul_rect m e1 e _ w Hlast Hw He1) as [M [HM HMr]].
  rewrite HM. cbn [bind].
  apply (tf_add_bias_rect m e M b HMr Hlb).
Qed.

(** X8. On parameters that form a chain of layers from dimension [d] to
    dimension [e], with at least one layer, [neural_net] accepts every
    [m] x [d] input and returns an [m] x [e] matrix. *)
Theorem neural_net_shape (m d e : nat) (X : matrix T) (p : params T) :
  net_shape d (params_w p) (params_b p) e -> params_w p <> [] ->
  rect m d X ->
  exists out, neural_net X p = Some out /\ rect m e out.
Proof. apply neural_net_shape_aux. Qed.

(** X9. With as many biases as weights, an input whose column count is not
    the row count of the first weight is rejected. *)
Theorem neural_net_input_mismatch
        (m d d' : nat) (X : matrix T) (p : params T) (w : matrix T)
        (ws : list (matrix T)) :
  params_w p = w :: ws -> length (params_b p) = length (params_w p) ->
  length w = d -> rect m d' X -> (1 <= m)%nat -> d <> d' ->
  neural_net X p = None.
Proof.
  intros Hw Hlen Hwd HX Hm Hne. destruct p as [ws' bs]. simpl in *. subst ws'.
  assert (HXw : tf_matmul X w = None)
    by (apply (tf_matmul_rejects m d' d X w HX Hm Hwd); congruence).
  unfold neural_net. cbn [params_w params_b].
  destruct bs as [|b bs]; [discriminate|].
  destruct ws as [|w1 ws].
  - destruct bs; [|discriminate]. simpl. now rewrite HXw.
  - destruct bs as [|b1 bs]; [discriminate|].
    change (removelast (w :: w1 :: ws)) with (w :: removelast (w1 :: ws)).
    change (removelast (b :: b1 :: bs)) with (b :: removelast (b1 :: bs)).
    cbn [combine hidden_layers last]. now rewrite HXw.
Qed.

End NeuralNetShapes.

Section InitNeuralNet.
Context {T : Type} `{Arith T} `{Relu T} {G : Type}.
Variable random_normal : nat -> nat -> T -> rand G (matrix T).

(** What [tf.random_normal] is relied on for: it returns a matrix of the
    requested shape. *)
Hypothesis random_normal_shape :
  forall n_in n_out std g,
  exists w g', random_normal n_in n_out std g = Some (w, g') /\ rect n_in n_out w.

Lemma init_layers_spec (std : T) (sizes : list (nat * nat)) :
  forall (p0 : params T) (g : G),
  exists ws g',
    init_layers random_normal sizes std p0 g
    = Some ({| params_w := params_w p0 ++ ws;
               params_b := params_b p0 ++ map (fun ab => tf_zeros (snd ab)) sizes |},
            g')
    /\ Forall2 (fun ab w => rect (fst ab) (snd ab) w) sizes ws.
Proof.
  induction sizes as [|[n_in n_out] sizes IH]; intros p0 g.
  - exists [], g. simpl. rewrite !app_nil_r. destruct p0. split; [reflexivity | constructor].
  - destruct (random_normal_shape n_in n_out std g) as [w [g1 [Hw Hwr]]].
    destruct (IH {| params_w := params_w p0 ++ [w];
                    params_b := params_b p0 ++ [tf_zeros n_out] |} g1)
      as [ws [g' [Hinit Hws]]].
    exists (w :: ws), g'. split.
    + cbn [init_layers]. unfold rbind at 1. rewrite Hw. rewrite Hinit.
      cbn [params_w params_b map snd]. now rewrite <- !app_assoc.
    + constructor; assumption.
Qed.

Lemma net_shape_of_sizes (rest : list nat) :
  forall (s0 : nat) (ws : list (matrix T)),
    Forall2 (fun ab w => rect (fst ab) (snd ab) w)
            (combine (removelast (s0 :: rest)) rest) ws ->
    Forall (fun s => 1 <= s)%nat (removelast (s0 :: rest)) ->
    net_shape s0 ws
              (map (fun ab => tf_zeros (snd ab)) (combine (removelast (s0 :: rest)) rest))
              (last (s0 :: rest) 0%nat).
Proof.
  induction rest as [|s1 rest IH]; intros s0 ws Hws Hpos.
  - simpl in *. inversion Hws. reflexivity.
  - change (removelast (s0 :: s1 :: rest)) with (s0 :: removelast (s1 :: rest)) in *.
    cbn [combine map snd] in *. inversion Hws as [|ab w ps ws' Hw Hws' E1 E2]. subst.
    inversion Hpos as [|? ? Hs0 Hpos']. subst.
    cbn [net_shape]. split; [exact Hs0|]. exists s1.
    split; [exact Hw|]. split; [apply repeat_length|].
    change (last (s0 :: s1 :: rest) 0%nat) with (last (s1 :: rest) 0%nat).
    apply IH; assumption.
Qed.

Lemma init_neural_net_shapes_aux (layer_sizes : list nat) (std : T) (g : G) :
  Forall (fun s => 1 <= s)%nat (removelast layer_sizes) ->
  exists p g',
    init_neural_net random_normal layer_sizes std g = Some (p, g')
    /\ length (params_w p) = (length layer_sizes - 1)%nat
    /\ length (params_b p) = (length layer_sizes - 1)%nat
    /\ net_shape (hd 0%nat layer_sizes) (params_w p) (params_b p)
                 (last layer_sizes 0%nat)
       /\ Forall (Forall (fun x => x = szero)) (params_b p).
Proof.
  intros Hpos. unfold init_neural_net.
  destruct (init_layers_spec std (combine (removelast layer_sizes) (tl layer_sizes))
                             {| params_w := []; params_b := [] |} g)
    as [ws [g' [Hinit Hws]]].
  eexists. exists g'. split; [exact Hinit|]. cbn [params_w params_b app].
  assert (Hlen : length (combine (removelast layer_sizes) (tl layer_sizes))
                 = (length layer_sizes - 1)%nat).
  { destruct layer_sizes as [|s0 rest]; [reflexivity|].
    rewrite length_combine. cbn [tl].
    assert (length (removelast (s0 :: rest)) = length rest).
    { clear. revert s0. induction rest as [|s1 rest IH]; intros s0; [reflexivity|].
      change (removelast (s0 :: s1 :: rest)) with (s0 :: removelast (s1 :: rest)).
      cbn [length]. now rewrite IH. }
    cbn [length]. lia. }
  split; [rewrite <- (Forall2_length Hws); exact Hlen|].
  split; [rewrite length_map; exact Hlen|].
  split.
  - destruct layer_sizes as [|s0 rest].
    + simpl in *. inversion Hws. reflexivity.
    + cbn [hd tl] in *. apply net_shape_of_sizes; assumption.
  - apply Forall_map, Forall_forall. intros ab _.
    apply Forall_forall. intros x Hx. apply repeat_spec in Hx. exact Hx.
Qed.

(** X10. [init_neural_net] creates one weight and one bias per consecutive
    pair of layer sizes: the weights chain from the first size to the last,
    and every bias is all zeros. *)
Theorem init_neural_net_shapes (layer_sizes : list nat) (std : T) (g : G) :
  Forall (fun s => 1 <= s)%nat (removelast layer_sizes) ->
  exists p g',
    init_neural_net random_normal layer_sizes std g = Some (p, g')
    /\ length (params_w p) = (length layer_sizes - 1)%nat
    /\ length (params_b p) = (length layer_sizes - 1)%nat
    /\ net_shape (hd 0%nat layer_sizes) (params_w p) (params_b p)
                 (last layer_sizes 0%nat)
    /\ Forall (Forall (fun x => x = szero)) (params_b p).
Proof. apply init_neural_net_shapes_aux. Qed.

(** X11. The network built from at least two layer sizes accepts every
    input with as many columns as the first size and returns as many
    columns as the last size; built from fewer than two sizes it has no
    layer, and [neural_net] raises on it. *)
Theorem neural_net_of_init (m : nat) (layer_sizes : list nat) (std : T) (g : G)
        (X : matrix T) :
  Forall (fun s => 1 <= s)%nat (removelast layer_sizes) ->
  rect m (hd 0%nat layer_sizes) X ->
  exists p g',
    init_neural_net random_normal layer_sizes std g = Some (p, g')
    /\ ((2 <= length layer_sizes)%nat ->
        exists out, neural_net X p = Some out
                    /\ rect m (last layer_sizes 0%nat) out)
    /\ ((length layer_sizes < 2)%nat -> neural_net X p = None).
Proof.
  intros Hpos HX.
  destruct (init_neural_net_shapes_aux layer_sizes std g Hpos)
    as [p [g' [Hinit [Hlw [Hlb [Hnet _]]]]]].
  exists p, g'. split; [exact Hinit|]. split.
  - intros Hlen. apply (neural_net_shape_aux m _ _ X p Hnet); [|exact HX].
    destruct (params_w p); [simpl in Hlw; lia | discriminate].
  - intros Hlen. destruct p as [ws bs]. simpl in *.
    destruct ws; [|simpl in Hlw; lia]. reflexivity.
Qed.

End InitNeuralNet.

Section NeuralNetOverR.
Local Open Scope R_scope.
Import Spec.

Lemma neural_net_shape_witness :
  exists out,
    neural_net [[1; 2]; [3; 4]; [5; 6]]
               {| params_w := [[[1; 0; 1]; [0; 1; 1]]; [[1]; [1]; [1]]];
                  params_b := [[0; 0; 0]; [0]] |}
    = Some out
    /\ rect 3 1 out.
Proof.
  apply (neural_net_shape 3 2 1).
  - cbn [net_shape params_w params_b]. split; [lia|]. exists 3%nat.
    split; [split; [reflexivity | repeat constructor]|].
    split; [reflexivity|]. split; [lia|]. exists 1%nat.
    split; [split; [reflexivity | repeat constructor]|].
    split; reflexivity.
  - discriminate.
  - split; [reflexivity | repeat constructor].
Defined.

Lemma neural_net_input_mismatch_witness :
  neural_net [[1; 2; 3]]
             {| params_w := [[[1; 0]; [0; 1]]]; params_b := [[0; 0]] |}
  = None.
Proof.
  apply (neural_net_input_mismatch 1 2 3 _ _ [[1; 0]; [0; 1]] []).
  - reflexivity.
  - reflexivity.
  - reflexivity.
  - split; [reflexivity | repeat constructor].
  - lia.
  - lia.
Defined.

Lemma init_neural_net_shapes_witness :
  exists p g',
    init_neural_net (G := unit)
      (fun n_in n_out std g => Some (repeat (repeat std n_out) n_in, g))
      [5; 20; 2]%nat 0.001 tt = Some (p, g')
    /\ length (params_w p) = (length [5; 20; 2]%nat - 1)%nat
    /\ length (params_b p) = (length [5; 20; 2]%nat - 1)%nat
    /\ net_shape (hd 0%nat [5; 20; 2]%nat) (params_w p) (params_b p)
                 (last [5; 20; 2]%nat 0%nat)
    /\ Forall (Forall (fun x => x = szero)) (params_b p).
Proof.
  apply (init_neural_net_shapes
           (fun n_in n_out std g => Some (repeat (repeat std n_out) n_in, g))).
  - intros n_in n_out std g. eexists. eexists. split; [reflexivity|].
    split; [apply repeat_length|].
    apply Forall_forall. intros r Hr. apply repeat_spec in Hr. subst r.
    apply repeat_length.
  - repeat constructor.
Defined.

Lemma neural_net_of_init_witness :
  exists p g',
    init_neural_net (G := unit)
      (fun n_in n_out std g => Some (repeat (repeat std n_out) n_in, g))
      [2; 3; 1]%nat 0.001 tt = Some (p, g')
    /\ ((2 <= length [2; 3; 1]%nat)%nat ->
        exists out, neural_net [[1; 2]] p = Some out
                    /\ rect 1 (last [2; 3; 1]%nat 0%nat) out)
    /\ ((length [2; 3; 1]%nat < 2)%nat -> neural_net [[1; 2]] p = None).
Proof.
  apply (neural_net_of_init
           (fun n_in n_out std g => Some (repeat (repeat std n_out) n_in, g))).
  - intros n_in n_out std g. eexists. eexists. split; [reflexivity|].
    split; [apply repeat_length|].
    apply Forall_forall. intros r Hr. apply repeat_spec in Hr. subst r.
    apply repeat_length.
  - repeat constructor.
  - split; [reflexivity | repeat constructor].
Defined.

(** X12. The notebook's objective on the generator's output: for network
    parameters that chain from the latent dimension to the data dimension,
    a data batch of [m] rows and a latent batch of [n] rows, the generator
    returns [n] rows of the data dimension and the objective is defined,
    whether or not [m = n]. *)
Theorem loss_of_generator
        (m n d0 d : nat) (X Z : matrix R) (p : params R) :
  net_shape d0 (params_w p) (params_b p) d -> params_w p <> [] ->
  rect n d0 Z -> rect m d X -> (1 <= m)%nat -> (1 <= n)%nat ->
  exists generator_out,
    neural_net Z p = Some generator_out
    /\ rect n d generator_out
    /\ loss X generator_out
       = Some (2 * transport_cost X generator_out 0.5 10
               - transport_cost X X 0.5 10
               - transport_cost generator_out generator_out 0.5 10).
Proof.
  intros Hnet Hne HZ HX Hm Hn.
  destruct (neural_net_shape_aux n d0 d Z p Hnet Hne HZ) as [out [Hout Hr]].
  exists out. split; [exact Hout|]. split; [exact Hr|].
  apply (loss_closed m n d X out HX Hr Hm Hn).
Qed.

Lemma loss_of_generator_witness :
  exists generator_out,
    neural_net [[1; 2]; [3; 4]; [5; 6]]
               {| params_w := [[[1; 0; 1]; [0; 1; 1]]; [[1]; [1]; [1]]];
                  params_b := [[0; 0; 0]; [0]] |}
    = Some generator_out
    /\ rect 3 1 generator_out
    /\ loss [[0]; [1]] generator_out
       = Some (2 * transport_cost [[0]; [1]] generator_out 0.5 10
               - transport_cost [[0]; [1]] [[0]; [1]] 0.5 10
               - transport_cost generator_out generator_out 0.5 10).
Proof.
  apply (loss_of_generator 2 3 2 1).
  - cbn [net_shape params_w params_b]. split; [lia|]. exists 3%nat.
    split; [split; [reflexivity | repeat constructor]|].
    split; [reflexivity|]. split; [lia|]. exists 1%nat.
    split; [split; [reflexivity | repeat constructor]|].
    split; reflexivity.
  - discriminate.
  - split; [reflexivity | repeat constructor].
  - split; [reflexivity | repeat constructor].
  - lia.
  - lia.
Defined.

End NeuralNetOverR.

(** ** [draw_samples] *)

Lemma labels_from_length (comp_arr : list nat) :
  forall idx, length (labels_from idx comp_arr) = list_sum comp_arr.
Proof.
  induction comp_arr as [|c comp IH]; intros idx; simpl; [reflexivity|].
  now rewrite length_app, repeat_length, IH.
Qed.

Lemma labels_from_sorted (comp_arr : list nat) :
  forall idx, StronglySorted le (labels_from idx comp_arr)
              /\ Forall (le idx) (labels_from idx comp_arr).
Proof.
  induction comp_arr as [|c comp IH]; intros idx; simpl.
  - split; constructor.
  - destruct (IH (S idx)) as [Hs Hge].
    assert (Hge' : Forall (le idx) (labels_from (S idx) comp))
      by (eapply Forall_impl; [|exact Hge]; intros; lia).
    induction c as [|c IHc]; simpl.
    + split; assumption.
    + destruct IHc as [Hs' Hall]. split.
      * constructor; assumption.
      * constructor; [lia | assumption].
Qed.

Lemma count_occ_labels_from (comp_arr : list nat) :
  forall idx k,
    count_occ Nat.eq_dec (labels_from idx comp_arr) k
    = if k <? idx then 0%nat else nth (k - idx) comp_arr 0%nat.
Proof.
  induction comp_arr as [|c comp IH]; intros idx k; simpl.
  - destruct (k <? idx); [reflexivity | now destruct (k - idx)%nat].
  - rewrite count_occ_app, IH.
    assert (Hrep : count_occ Nat.eq_dec (repeat idx c) k
                   = if idx =? k then c else 0%nat).
    { induction c as [|c IHc]; simpl.
      - now destruct (idx =? k).
      - destruct (Nat.eq_dec idx k) as [E | NE].
        + rewrite IHc. now rewrite (proj2 (Nat.eqb_eq idx k) E).
        + rewrite IHc. now rewrite (proj2 (Nat.eqb_neq idx k) NE). }
    rewrite Hrep.
    destruct (Nat.eqb_spec idx k) as [E | NE].
    + subst k. rewrite (proj2 (Nat.ltb_lt idx (S idx))) by lia.
      rewrite (proj2 (Nat.ltb_ge idx idx)) by lia.
      rewrite Nat.sub_diag. lia.
    + destruct (Nat.ltb_spec k idx) as [Hlt | Hge].
      * rewrite (proj2 (Nat.ltb_lt k (S idx))) by lia. reflexivity.
      * rewrite (proj2 (Nat.ltb_ge k (S idx))) by lia.
        destruct (k - idx)%nat as [|q] eqn:Eq; [lia|].
        replace (k - S idx)%nat with q by lia. reflexivity.
Qed.

Section DrawSamplesProperties.
Context {G T : Type}.
Variable multinomial : nat -> vector T -> rand G (list nat).
Variable multivariate_normal : vector T -> matrix T -> rand G (vector T).
Variables (mu_s : list (vector T)) (cov_s : list (matrix T)).

Local Abbreviation component := (draw_component multivariate_normal mu_s cov_s).
Local Abbreviation components := (draw_components multivariate_normal mu_s cov_s).
Local Abbreviation drawn := (drawn_from multivariate_normal mu_s cov_s).

Lemma draw_component_fails (idx count : nat) (zy : list (vector T) * list nat) (g : G) :
  (1 <= count)%nat -> (length mu_s <= idx \/ length cov_s <= idx)%nat ->
  component idx count zy g = None.
Proof.
  intros Hc Hidx. destruct count as [|count]; [lia|].
  cbn [draw_component]. unfold rbind, rlift.
  destruct (nth_error mu_s idx) as [mu|] eqn:Emu; [|reflexivity].
  destruct (nth_error cov_s idx) as [cov|] eqn:Ecov; [|reflexivity].
  destruct Hidx as [Hi | Hi].
  - apply nth_error_None in Hi. congruence.
  - apply nth_error_None in Hi. congruence.
Qed.

Lemma draw_components_fails (comp_arr : list nat) :
  forall (i k : nat) (zy : list (vector T) * list nat) (g : G),
    (1 <= nth k comp_arr 0)%nat ->
    (length mu_s <= i + k \/ length cov_s <= i + k)%nat ->
    components i comp_arr zy g = None.
Proof.
  induction comp_arr as [|c comp IH]; intros i k zy g Hk Hidx.
  - destruct k; simpl in Hk; lia.
  - cbn [draw_components]. unfold rbind at 1.
    destruct k as [|k].
    + simpl in Hk. rewrite Nat.add_0_r in Hidx.
      now rewrite (draw_component_fails i c zy g Hk Hidx).
    + destruct (component i c zy g) as [[zy' g']|]; [|reflexivity].
      apply (IH (S i) k); [exact Hk | ].
      replace (S i + k)%nat with (i + S k)%nat by lia. exact Hidx.
Qed.

Hypothesis multivariate_normal_total :
  forall mu cov g, exists s g', multivariate_normal mu cov g = Some (s, g').

Lemma draw_component_spec (idx : nat) :
  (idx < length mu_s)%nat -> (idx < length cov_s)%nat ->
  forall (count : nat) (zy : list (vector T) * list nat) (g : G),
  exists zs g',
    component idx count zy g
    = Some ((fst zy ++ zs, snd zy ++ repeat idx count), g')
    /\ Forall2 (fun s lbl => drawn lbl s) zs (repeat idx count).
Proof.
  intros Hmu Hcov. induction count as [|count IH]; intros zy g.
  - exists [], g. simpl. unfold rret. rewrite !app_nil_r. destruct zy.
    split; [reflexivity | constructor].
  - destruct (nth_error mu_s idx) as [mu|] eqn:Emu;
      [|apply nth_error_None in Emu; lia].
    destruct (nth_error cov_s idx) as [cov|] eqn:Ecov;
      [|apply nth_error_None in Ecov; lia].
    destruct (multivariate_normal_total mu cov g) as [s [g1 Hs]].
    destruct (IH (fst zy ++ [s], snd zy ++ [idx]) g1) as [zs [g' [Hrec Hall]]].
    exists (s :: zs), g'. split.
    + cbn [draw_component]. unfold rbind, rlift.
      rewrite Emu, Ecov, Hs, Hrec.
      cbn [fst snd repeat]. now rewrite <- !app_assoc.
    + cbn [repeat]. constructor; [|exact Hall].
      exists mu, cov, g, g1. repeat split; assumption.
Qed.

Lemma draw_components_spec (comp_arr : list nat) :
  forall (i : nat) (zy : list (vector T) * list nat) (g : G),
    (i + length comp_arr <= length mu_s)%nat ->
    (i + length comp_arr <= length cov_s)%nat ->
    exists zs g',
      components i comp_arr zy g
      = Some ((fst zy ++ zs, snd zy ++ labels_from i comp_arr), g')
      /\ Forall2 (fun s lbl => drawn lbl s) zs (labels_from i comp_arr).
Proof.
  induction comp_arr as [|c comp IH]; intros i zy g Hmu Hcov.
  - exists [], g. simpl. unfold rret. rewrite !app_nil_r. destruct zy.
    split; [reflexivity | constructor].
  - simpl in Hmu, Hcov.
    destruct (draw_component_spec i ltac:(lia) ltac:(lia) c zy g)
      as [zs1 [g1 [H1 Hall1]]].
    destruct (IH (S i) (fst zy ++ zs1, snd zy ++ repeat i c) g1
                 ltac:(lia) ltac:(lia)) as [zs2 [g' [H2 Hall2]]].
    exists (zs1 ++ zs2), g'. split.
    + cbn [draw_components labels_from]. unfold rbind at 1.
      rewrite H1, H2. cbn [fst snd]. now rewrite <- !app_assoc.
    + cbn [labels_from]. apply Forall2_app; assumption.
Qed.

Lemma draw_samples_structure_aux
        (pi_arr : vector T) (mu_arr : list (vector T)) (cov_arr : list (matrix T))
        (n_samples : nat) (g g1 : G) (comp_arr : list nat) :
  multinomial n_samples pi_arr g = Some (comp_arr, g1) ->
  list_sum comp_arr = n_samples ->
  (length comp_arr <= length mu_s)%nat ->
  (length comp_arr <= length cov_s)%nat ->
  exists z g',
    draw_samples multinomial multivariate_normal mu_s cov_s
                 pi_arr mu_arr cov_arr n_samples g
    = Some ((z, col (component_labels comp_arr)), g')
    /\ length z = n_samples
    /\ length (col (component_labels comp_arr)) = n_samples
    /\ Forall2 (fun s lbl => drawn lbl s) z (component_labels comp_arr)
    /\ StronglySorted le (component_labels comp_arr)
    /\ forall k, count_occ Nat.eq_dec (component_labels comp_arr) k
                 = nth k comp_arr 0%nat.
Proof.
  intros Hmult Hsum Hmu Hcov.
  destruct (draw_components_spec comp_arr 0 ([], []) g1 Hmu Hcov)
    as [z [g' [Hdraw Hall]]].
  exists z, g'. split.
  - unfold draw_samples, rbind at 1. rewrite Hmult.
    unfold rbind at 1. rewrite Hdraw. reflexivity.
  - assert (Hlen : length (component_labels comp_arr) = n_samples)
      by (unfold component_labels; now rewrite labels_from_length).
    split; [rewrite (Forall2_length Hall); exact Hlen|].
    split; [rewrite col_length; exact Hlen|].
    split; [exact Hall|].
    split; [apply labels_from_sorted|].
    intros k. unfold component_labels. rewrite count_occ_labels_from.
    simpl. now rewrite Nat.sub_0_r.
Qed.

(** X13. When the globals hold a mean and a covariance for every
    component, [draw_samples] returns [n_samples] rows and a one-column
    label matrix of the same height: the labels are grouped in increasing
    order, label [k] occurs as often as the multinomial draw says, and
    each row is a draw for the global mean and covariance of its label,
    whatever [mu_arr] and [cov_arr] are passed. *)
Theorem draw_samples_structure
        (pi_arr : vector T) (mu_arr : list (vector T)) (cov_arr : list (matrix T))
        (n_samples : nat) (g g1 : G) (comp_arr : list nat) :
  multinomial n_samples pi_arr g = Some (comp_arr, g1) ->
  list_sum comp_arr = n_samples ->
  (length comp_arr <= length mu_s)%nat ->
  (length comp_arr <= length cov_s)%nat ->
  exists z g',
    draw_samples multinomial multivariate_normal mu_s cov_s
                 pi_arr mu_arr cov_arr n_samples g
    = Some ((z, col (component_labels comp_arr)), g')
    /\ length z = n_samples
    /\ length (col (component_labels comp_arr)) = n_samples
    /\ Forall2 (fun s lbl => drawn lbl s) z (component_labels comp_arr)
    /\ StronglySorted le (component_labels comp_arr)
    /\ forall k, count_occ Nat.eq_dec (component_labels comp_arr) k
                 = nth k comp_arr 0%nat.
Proof. apply draw_samples_structure_aux. Qed.

End DrawSamplesProperties.

Section DrawSamplesIndexError.
Context {G T : Type}.
Variable multinomial : nat -> vector T -> rand G (list nat).
Variable multivariate_normal : vector T -> matrix T -> rand G (vector T).
Variables (mu_s : list (vector T)) (cov_s : list (matrix T)).

(** X14. When the multinomial draw gives a positive count to a component
    for which the globals hold no mean or no covariance, [draw_samples]
    raises, also when the arguments [mu_arr] and [cov_arr] do hold one. *)
Theorem draw_samples_index_error
        (pi_arr : vector T) (mu_arr : list (vector T)) (cov_arr : list (matrix T))
        (n_samples : nat) (g g1 : G) (comp_arr : list nat) (k : nat) :
  multinomial n_samples pi_arr g = Some (comp_arr, g1) ->
  (1 <= nth k comp_arr 0)%nat ->
  (length mu_s <= k \/ length cov_s <= k)%nat ->
  draw_samples multinomial multivariate_normal mu_s cov_s
               pi_arr mu_arr cov_arr n_samples g
  = None.
Proof.
  intros Hmult Hk Hidx.
  unfold draw_samples, rbind at 1. rewrite Hmult. unfold rbind at 1.
  now rewrite (draw_components_fails multivariate_normal mu_s cov_s
                 comp_arr 0 k ([], []) g1 Hk Hidx).
Qed.

End DrawSamplesIndexError.

Section DrawSamplesWitnesses.
Local Open Scope R_scope.

Lemma draw_samples_structure_witness :
  exists z g',
    draw_samples (G := unit)
                 (fun n pvals g => Some ([2; 3]%nat, g))
                 (fun mean cov g => Some (mean, g))
                 [[-5; -5]; [5; 5]] [[[1; 0]; [0; 1]]; [[1; 0]; [0; 1]]]
                 [0.05; 0.95] [] [] 5 tt
    = Some ((z, col (component_labels [2; 3]%nat)), g')
    /\ length z = 5%nat
    /\ length (col (component_labels [2; 3]%nat)) = 5%nat
    /\ Forall2 (fun s lbl =>
                  drawn_from (G := unit) (fun mean cov g => Some (mean, g))
                             [[-5; -5]; [5; 5]]
                             [[[1; 0]; [0; 1]]; [[1; 0]; [0; 1]]] lbl s)
               z (component_labels [2; 3]%nat)
    /\ StronglySorted le (component_labels [2; 3]%nat)
    /\ forall k, count_occ Nat.eq_dec (component_labels [2; 3]%nat) k
                 = nth k [2; 3]%nat 0%nat.
Proof.
  apply (draw_samples_structure
           (fun n pvals g => Some ([2; 3]%nat, g))
           (fun mean cov g => Some (mean, g))
           [[-5; -5]; [5; 5]] [[[1; 0]; [0; 1]]; [[1; 0]; [0; 1]]])
    with (g1 := tt).
  - intros mu cov g. exists mu, g. reflexivity.
  - reflexivity.
  - reflexivity.
  - simpl. lia.
  - simpl. lia.
Defined.

Lemma draw_samples_index_error_witness :
  draw_samples (G := unit)
               (fun n pvals g => Some ([1; 1; 1]%nat, g))
               (fun mean cov g => Some (mean, g))
               [[-5; -5]; [5; 5]] [[[1; 0]; [0; 1]]; [[1; 0]; [0; 1]]]
               [0.3; 0.3; 0.4] [[0; 0]; [1; 1]; [2; 2]]
               [[[1; 0]; [0; 1]]; [[1; 0]; [0; 1]]; [[1; 0]; [0; 1]]] 3 tt
  = None.
Proof.
  apply (draw_samples_index_error
           (fun n pvals g => Some ([1; 1; 1]%nat, g))
           (fun mean cov g => Some (mean, g))
           [[-5; -5]; [5; 5]] [[[1; 0]; [0; 1]]; [[1; 0]; [0; 1]]])
    with (g1 := tt) (comp_arr := [1; 1; 1]%nat) (k := 2%nat).
  - reflexivity.
  - simpl. lia.
  - left. simpl. lia.
Defined.

End DrawSamplesWitnesses.

(** ** [shuffle_in_unison_inplace] *)

Lemma mapM_Forall2 {A B : Type} (f : A -> option B) (xs : list A) :
  forall ys, mapM f xs = Some ys -> Forall2 (fun x y => f x = Some y) xs ys.
Proof.
  induction xs as [|x xs IH]; intros ys Hm; simpl in Hm.
  - injection Hm as <-. constructor.
  - destruct (f x) as [y|] eqn:Ef; [|discriminate]. simpl in Hm.
    destruct (mapM f xs) as [ys'|]; [|discriminate]. simpl in Hm.
    injection Hm as <-. constructor; [exact Ef | now apply IH].
Qed.

Lemma take_seq {A : Type} (a : list A) : take a (seq 0 (length a)) = Some a.
Proof.
  unfold take.
  assert (Hgen : forall (pre : list A),
             mapM (nth_error (pre ++ a)) (seq (length pre) (length a)) = Some a).
  { induction a as [|x a IH]; intros pre; [reflexivity|].
    cbn [length seq mapM]. rewrite nth_error_app2 by lia.
    rewrite Nat.sub_diag. cbn [nth_error bind].
    specialize (IH (pre ++ [x])). rewrite <- app_assoc, length_app in IH.
    simpl in IH. rewrite Nat.add_1_r in IH. now rewrite IH. }
  apply (Hgen []).
Qed.

Lemma take_total {A : Type} (a : list A) (p : list nat) :
  Forall (fun i => i < length a)%nat p -> exists a', take a p = Some a'.
Proof.
  unfold take. induction p as [|i p IH]; intros Hp.
  - exists []. reflexivity.
  - inversion Hp as [|? ? Hi Hp']. subst.
    destruct (nth_error a i) as [x|] eqn:Ex;
      [|apply nth_error_None in Ex; lia].
    destruct (IH Hp') as [a' Ha']. exists (x :: a').
    simpl. now rewrite Ex, Ha'.
Qed.

Lemma take_combine {A B : Type} (a : list A) (b : list B) (p : list nat) :
  forall a' b', take a p = Some a' -> take b p = Some b' ->
                take (combine a b) p = Some (combine a' b').
Proof.
  unfold take. induction p as [|i p IH]; intros a' b' Ha Hb; simpl in *.
  - injection Ha as <-. injection Hb as <-. reflexivity.
  - destruct (nth_error a i) as [x|] eqn:Ex; [|discriminate].
    destruct (nth_error b i) as [y|] eqn:Ey; [|discriminate]. simpl in *.
    destruct (mapM (nth_error a) p) as [a0|]; [|discriminate].
    destruct (mapM (nth_error b) p) as [b0|]; [|discriminate]. simpl in *.
    injection Ha as <-. injection Hb as <-.
    assert (Exy : nth_error (combine a b) i = Some (x, y)).
    { clear - Ex Ey. revert b i Ex Ey.
      induction a as [|x0 a IHa]; intros [|y0 b] [|i] Ex Ey; simpl in *;
        try discriminate.
      - congruence.
      - now apply IHa. }
    rewrite Exy. simpl. now rewrite (IH a0 b0 eq_refl eq_refl).
Qed.

Lemma take_Permutation {A : Type} (a : list A) (p q : list nat) :
  Permutation p q ->
  forall a', take a p = Some a' ->
             exists a'', take a q = Some a'' /\ Permutation a' a''.
Proof.
  unfold take. induction 1 as [|i p q Hpq IH|i j p|p q r Hpq IH1 Hqr IH2];
    intros a' Ha; simpl in *.
  - injection Ha as <-. exists []. split; [reflexivity | constructor].
  - destruct (nth_error a i) as [x|]; [|discriminate]. simpl in *.
    destruct (mapM (nth_error a) p) as [a0|]; [|discriminate]. simpl in Ha.
    injection Ha as <-. destruct (IH a0 eq_refl) as [a1 [Ha1 Hperm]].
    exists (x :: a1). rewrite Ha1. split; [reflexivity | now constructor].
  - destruct (nth_error a j) as [y|]; [|discriminate]. simpl in *.
    destruct (nth_error a i) as [x|]; [|discriminate]. simpl in *.
    destruct (mapM (nth_error a) p) as [a0|]; [|discriminate]. simpl in Ha.
    injection Ha as <-. exists (x :: y :: a0). split; [reflexivity | constructor].
  - destruct (IH1 a' Ha) as [a1 [Ha1 Hp1]].
    destruct (IH2 a1 Ha1) as [a2 [Ha2 Hp2]].
    exists a2. split; [exact Ha2 | now transitivity a1].
Qed.

(** Fancy indexing by position: row [k] of [a[p]] is row [p[k]] of [a]. *)
Lemma take_nth_error {A : Type} (a : list A) (p : list nat) (a' : list A) :
  take a p = Some a' ->
  forall k i, nth_error p k = Some i -> nth_error a' k = nth_error a i.
Proof.
  intros Ht. apply mapM_Forall2 in Ht.
  induction Ht as [|i0 x p0 a0 Hx _ IH]; intros k i Hk.
  - destruct k; discriminate.
  - destruct k as [|k]; simpl in *.
    + injection Hk as <-. now rewrite Hx.
    + now apply IH.
Qed.

Section ShuffleProperties.
Context {G : Type}.
Variable permutation : nat -> rand G (list nat).

(** The assertion: arrays of different heights are rejected before
    anything is drawn. *)
Lemma shuffle_height_mismatch {A B : Type} (a : list A) (b : list B) (g : G) :
  length a <> length b -> shuffle_in_unison_inplace permutation a b g = None.
Proof.
  intros Hne. unfold shuffle_in_unison_inplace.
  destruct (length a =? length b) eqn:E; [|reflexivity].
  apply Nat.eqb_eq in E. contradiction.
Qed.

Lemma shuffle_in_unison_aux
        {A B : Type} (a : list A) (b : list B) (g g1 : G) (p : list nat) :
  length a = length b ->
  permutation (length a) g = Some (p, g1) ->
  Permutation p (seq 0 (length a)) ->
  exists a' b',
    shuffle_in_unison_inplace permutation a b g = Some ((a', b'), g1)
    /\ Permutation (combine a' b') (combine a b)
    /\ Permutation a' a /\ Permutation b' b
    /\ length a' = length a /\ length b' = length b
    /\ take a p = Some a' /\ take b p = Some b'
    /\ forall k i, nth_error p k = Some i ->
                   nth_error a' k = nth_error a i
                   /\ nth_error b' k = nth_error b i.
Proof.
  intros Hlen Hp Hperm.
  assert (Hin : Forall (fun i => i < length a)%nat p).
  { apply Forall_forall. intros i Hi.
    apply (Permutation_in _ Hperm), in_seq in Hi. lia. }
  destruct (take_total a p Hin) as [a' Ha'].
  assert (Hin' : Forall (fun i => i < length b)%nat p) by (now rewrite <- Hlen).
  destruct (take_total b p Hin') as [b' Hb'].
  exists a', b'.
  assert (Hla : length a' = length p)
    by (symmetry; apply (Forall2_length (mapM_Forall2 _ _ _ Ha'))).
  assert (Hlb : length b' = length p)
    by (symmetry; apply (Forall2_length (mapM_Forall2 _ _ _ Hb'))).
  assert (Hlp : length p = length a)
    by (rewrite (Permutation_length Hperm); apply length_seq).
  assert (Hc : Permutation (combine a' b') (combine a b)).
  { destruct (take_Permutation (combine a b) p (seq 0 (length a)) Hperm
                (combine a' b') (take_combine a b p a' b' Ha' Hb'))
      as [c [Hc Hpc]].
    assert (Hlc : length (combine a b) = length a)
      by (rewrite length_combine; lia).
    rewrite <- Hlc, take_seq in Hc. injection Hc as <-. exact Hpc. }
  split.
  { unfold shuffle_in_unison_inplace.
    rewrite (proj2 (Nat.eqb_eq _ _) Hlen).
    unfold rbind at 1. rewrite Hp.
    unfold rbind at 1, rlift at 1. rewrite Ha'.
    unfold rbind at 1, rlift at 1. rewrite Hb'. reflexivity. }
  split; [exact Hc|].
  assert (Hfst : forall (x : list A) (y : list B),
             length x = length y -> map fst (combine x y) = x).
  { induction x as [|x0 x IHx]; intros [|y0 y] Hxy; simpl in *;
      try discriminate; [reflexivity|]. f_equal. apply IHx. lia. }
  assert (Hsnd : forall (x : list A) (y : list B),
             length x = length y -> map snd (combine x y) = y).
  { induction x as [|x0 x IHx]; intros [|y0 y] Hxy; simpl in *;
      try discriminate; [reflexivity|]. f_equal. apply IHx. lia. }
  split.
  { pose proof (Permutation_map fst Hc) as H1.
    rewrite (Hfst a' b'), (Hfst a b) in H1 by lia. exact H1. }
  split.
  { pose proof (Permutation_map snd Hc) as H1.
    rewrite (Hsnd a' b'), (Hsnd a b) in H1 by lia. exact H1. }
  split; [lia|]. split; [lia|].
  split; [exact Ha'|]. split; [exact Hb'|].
  intros k i Hk. split.
  - apply (take_nth_error a p a' Ha' k i Hk).
  - apply (take_nth_error b p b' Hb' k i Hk).
Qed.

(** X15. On two arrays of one height, given that [np.random.permutation]
    returns a permutation [p] of the row indices,
    [shuffle_in_unison_inplace] returns [a[p]] and [b[p]]: row [k] of the
    first output is row [p[k]] of [a] and row [k] of the second is row
    [p[k]] of [b].  So the pairs of rows are a permutation of the original
    pairs, each output is a permutation of its input, and the heights are
    kept. *)
Theorem shuffle_in_unison
        {A B : Type} (a : list A) (b : list B) (g g1 : G) (p : list nat) :
  length a = length b ->
  permutation (length a) g = Some (p, g1) ->
  Permutation p (seq 0 (length a)) ->
  exists a' b',
    shuffle_in_unison_inplace permutation a b g = Some ((a', b'), g1)
    /\ Permutation (combine a' b') (combine a b)
    /\ Permutation a' a /\ Permutation b' b
    /\ length a' = length a /\ length b' = length b
    /\ take a p = Some a' /\ take b p = Some b'
    /\ forall k i, nth_error p k = Some i ->
                   nth_error a' k = nth_error a i
                   /\ nth_error b' k = nth_error b i.
Proof. apply shuffle_in_unison_aux. Qed.

End ShuffleProperties.

Lemma shuffle_in_unison_witness :
  exists a' b',
    shuffle_in_unison_inplace (G := unit) (fun n g => Some ([2; 0; 1]%nat, g))
                              [10; 20; 30]%nat [true; false; true] tt
    = Some ((a', b'), tt)
    /\ Permutation (combine a' b') (combine [10; 20; 30]%nat [true; false; true])
    /\ Permutation a' [10; 20; 30]%nat /\ Permutation b' [true; false; true]
    /\ length a' = length [10; 20; 30]%nat
    /\ length b' = length [true; false; true]
    /\ take [10; 20; 30]%nat [2; 0; 1]%nat = Some a'
    /\ take [true; false; true] [2; 0; 1]%nat = Some b'
    /\ forall k i, nth_error [2; 0; 1]%nat k = Some i ->
                   nth_error a' k = nth_error [10; 20; 30]%nat i
                   /\ nth_error b' k = nth_error [true; false; true] i.
Proof.
  apply (shuffle_in_unison (fun n g => Some ([2; 0; 1]%nat, g))
                           [10; 20; 30]%nat [true; false; true] tt tt [2; 0; 1]%nat).
  - reflexivity.
  - reflexivity.
  - simpl. apply Permutation_sym.
    apply (perm_trans (perm_skip 0%nat (perm_swap 2%nat 1%nat []))).
    apply perm_swap.
Defined.

(** ** The batches of the training loops *)

Lemma firstn_plus {A : Type} (a b : nat) (l : list A) :
  firstn (a + b) l = firstn a l ++ firstn b (skipn a l).
Proof.
  revert l. induction a as [|a IH]; intros l; [reflexivity|].
  destruct l as [|x l]; simpl.
  - now rewrite firstn_nil.
  - now rewrite IH.
Qed.

Lemma batch_firstn {A : Type} (X_train : list A) (batch_size idx : nat) :
  batch X_train batch_size idx = firstn batch_size (skipn (idx * batch_size) X_train).
Proof.
  unfold batch, py_slice. f_equal. lia.
Qed.

Lemma concat_batches {A : Type} (X_train : list A) (batch_size k : nat) :
  concat (map (batch X_train batch_size) (seq 0 k))
  = firstn (k * batch_size) X_train.
Proof.
  induction k as [|k IH]; [reflexivity|].
  rewrite seq_S, map_app, concat_app, IH. cbn [Nat.add map concat].
  rewrite app_nil_r, batch_firstn.
  replace (S k * batch_size)%nat with (k * batch_size + batch_size)%nat by lia.
  now rewrite firstn_plus.
Qed.

(** X16. An epoch feeds [N / batch_size] batches of exactly [batch_size]
    rows each, which together are the first [(N / batch_size) * batch_size]
    rows of the training array in order: the rows after them are fed to no
    batch. *)
Theorem epoch_batches_cover {A : Type} (X_train : list A) (N batch_size : nat) :
  (N <= length X_train)%nat -> (1 <= batch_size)%nat ->
  length (epoch_batches X_train N batch_size) = (N / batch_size)%nat
  /\ Forall (fun rows => length rows = batch_size)
            (epoch_batches X_train N batch_size)
  /\ concat (epoch_batches X_train N batch_size)
     = firstn (N / batch_size * batch_size) X_train.
Proof.
  intros HN Hb. unfold epoch_batches. split; [|split].
  - now rewrite length_map, length_seq.
  - apply Forall_map, Forall_forall. intros idx Hidx. apply in_seq in Hidx.
    rewrite batch_firstn, length_firstn, length_skipn.
    pose proof (Nat.Div0.mul_div_le N batch_size) as Hle.
    assert (S idx * batch_size <= N / batch_size * batch_size)%nat
      by (apply Nat.mul_le_mono_r; lia).
    lia.
  - apply concat_batches.
Qed.

Lemma epoch_batches_cover_witness :
  length (epoch_batches [1; 2; 3; 4; 5; 6; 7]%nat 7 3) = (7 / 3)%nat
  /\ Forall (fun rows => length rows = 3%nat)
            (epoch_batches [1; 2; 3; 4; 5; 6; 7]%nat 7 3)
  /\ concat (epoch_batches [1; 2; 3; 4; 5; 6; 7]%nat 7 3)
     = firstn (7 / 3 * 3) [1; 2; 3; 4; 5; 6; 7]%nat.
Proof.
  apply (epoch_batches_cover [1; 2; 3; 4; 5; 6; 7]%nat 7 3).
  - simpl. lia.
  - lia.
Defined.

(** ** The training data: [draw_samples], then [shuffle_in_unison_inplace] *)

Lemma Forall2_combine {A B : Type} (P : A -> B -> Prop) (xs : list A) :
  forall ys, length xs = length ys ->
             (Forall2 P xs ys <-> Forall (fun xy => P (fst xy) (snd xy)) (combine xs ys)).
Proof.
  induction xs as [|x xs IH]; intros [|y ys] Hlen; simpl in *; try discriminate.
  - split; constructor.
  - split; intros Hall; inversion Hall; subst; constructor; try assumption;
      apply (IH ys); try lia; assumption.
Qed.

Section TrainingDataProperties.
Context {G T : Type}.
Variable multinomial : nat -> vector T -> rand G (list nat).
Variable multivariate_normal : vector T -> matrix T -> rand G (vector T).
Variable permutation : nat -> rand G (list nat).
Variables (mu_s : list (vector T)) (cov_s : list (matrix T)).

Hypothesis multivariate_normal_total :
  forall mu cov g, exists s g', multivariate_normal mu cov g = Some (s, g').

(** [np.random.permutation(n)] returns a permutation of [0, ..., n-1]. *)
Hypothesis permutation_permutes :
  forall n g, exists p g', permutation n g = Some (p, g')
                           /\ Permutation p (seq 0 n).

(** X17. The shuffled training data still pairs every sample with its own
    label: there are [N] samples and [N] one-entry label rows, and each
    sample is a draw for the mean and covariance of the label beside it. *)
Theorem training_data_labelled
        (pi : vector T) (N : nat) (g g1 : G) (comp_arr : list nat) :
  multinomial N pi g = Some (comp_arr, g1) ->
  list_sum comp_arr = N ->
  (length comp_arr <= length mu_s)%nat ->
  (length comp_arr <= length cov_s)%nat ->
  exists X_train y_train g',
    training_data multinomial multivariate_normal permutation pi mu_s cov_s N g
    = Some ((X_train, y_train), g')
    /\ length X_train = N /\ length y_train = N
    /\ Forall2 (fun s row =>
                  exists lbl, row = [lbl]
                              /\ drawn_from multivariate_normal mu_s cov_s lbl s)
               X_train y_train.
Proof.
  intros Hmult Hsum Hmu Hcov.
  destruct (draw_samples_structure_aux multinomial multivariate_normal mu_s cov_s
              multivariate_normal_total pi mu_s cov_s N g g1 comp_arr
              Hmult Hsum Hmu Hcov)
    as [z [g2 [Hdraw [Hlz [Hly [Hall _]]]]]].
  set (y := col (component_labels comp_arr)) in *.
  assert (Hlen : length z = length y) by lia.
  destruct (permutation_permutes (length z) g2) as [p [g' [Hp Hperm]]].
  destruct (shuffle_in_unison_aux permutation z y g2 g' p Hlen Hp Hperm)
    as [X' [y' [Hsh [Hc [_ [_ [HlX [Hly' _]]]]]]]].
  exists X', y', g'. split.
  - unfold training_data, rbind at 1. rewrite Hdraw. exact Hsh.
  - split; [lia|]. split; [lia|].
    set (P := fun (s : vector T) (row : list nat) =>
                exists lbl, row = [lbl]
                            /\ drawn_from multivariate_normal mu_s cov_s lbl s).
    apply (proj2 (Forall2_combine P X' y' ltac:(lia))).
    apply (Permutation_Forall (Permutation_sym Hc)).
    apply (proj1 (Forall2_combine P z y Hlen)).
    subst y P. unfold col. clear - Hall.
    induction Hall as [|s lbl zs lbls Hs Hall IH]; simpl; constructor.
    + exists lbl. split; [reflexivity | exact Hs].
    + exact IH.
Qed.

End TrainingDataProperties.

Section TrainingDataWitness.
Local Open Scope R_scope.

Lemma training_data_labelled_witness :
  exists X_train y_train g',
    training_data (G := unit)
                  (fun n pvals g => Some ([1; 2]%nat, g))
                  (fun mean cov g => Some (mean, g))
                  (fun n g => Some (rev (seq 0 n), g))
                  [0.05; 0.95] [[-5; -5]; [5; 5]]
                  [[[1; 0]; [0; 1]]; [[1; 0]; [0; 1]]] 3 tt
    = Some ((X_train, y_train), g')
    /\ length X_train = 3%nat /\ length y_train = 3%nat
    /\ Forall2 (fun s row =>
                  exists lbl, row = [lbl]
                              /\ drawn_from (G := unit)
                                   (fun mean cov g => Some (mean, g))
                                   [[-5; -5]; [5; 5]]
                                   [[[1; 0]; [0; 1]]; [[1; 0]; [0; 1]]] lbl s)
               X_train y_train.
Proof.
  apply (training_data_labelled
           (fun n pvals g => Some ([1; 2]%nat, g))
           (fun mean cov g => Some (mean, g))
           (fun n g => Some (rev (seq 0 n), g))
           [[-5; -5]; [5; 5]] [[[1; 0]; [0; 1]]; [[1; 0]; [0; 1]]])
    with (g1 := tt) (comp_arr := [1; 2]%nat).
  - intros mu cov g. exists mu, g. reflexivity.
  - intros n g. exists (rev (seq 0 n)), g. split; [reflexivity|].
    apply Permutation_sym, Permutation_rev.
  - reflexivity.
  - reflexivity.
  - simpl. lia.
  - simpl. lia.
Defined.

End TrainingDataWitness.

(** ** The routine in binary32 *)

Section Binary32Model.
Local Open Scope R_scope.

(** What the underflow branch of [Float32.exp32] rests on: at or below -150
    the exponential is below [2^-150]. *)
Lemma exp_below_half_least_binary32 (x : R) :
  x <= -150 -> exp x < / 2 ^ 150.
Proof.
  intros Hx.
  assert (He : 2 < exp 1) by (pose proof (exp_ineq1 1 ltac:(lra)); lra).
  assert (Hpow : forall n : nat, exp (INR n) = exp 1 ^ n).
  { induction n as [|n IH]; [simpl; apply exp_0|].
    rewrite S_INR, exp_plus, IH. simpl. ring. }
  assert (Hlt : forall n : nat, 2 ^ S n < exp 1 ^ S n).
  { induction n as [|n IH]; [simpl; lra|].
    change (2 * 2 ^ S n < exp 1 * exp 1 ^ S n).
    assert (0 < 2 ^ S n) by (apply pow_lt; lra). nra. }
  apply Rle_lt_trans with (exp (- INR 150)).
  - destruct Hx as [Hx | ->].
    + left. apply exp_increasing. rewrite INR_IZR_INZ. simpl. lra.
    + right. f_equal. rewrite INR_IZR_INZ. simpl. lra.
  - rewrite exp_Ropp, Hpow. apply Rinv_lt_contravar.
    + apply Rmult_lt_0_compat; apply pow_lt; lra.
    + apply (Hlt 149%nat).
Qed.

(** The binary32 literal for [1e-12] is within half a unit in the last
    place of it. *)
Lemma lit_1em12_binary32_nearest :
  Float32.of_Z_pow2 9223372 (-63) = S754_finite false 9223372 (-63)
  /\ (2 * Z.abs (9223372 * 10 ^ 12 - 2 ^ 63) < 10 ^ 12)%Z.
Proof. split; [reflexivity | vm_compute; reflexivity]. Qed.


(** A squared distance that overflows makes the routine return NaN,
    whatever the exponential does where implementations may differ. *)
Lemma float32_loss_nan (exp_finite : Float32.float32 -> Float32.float32) :
  sinkhorn_loss (H := Float32.float32_scalar exp_finite)
                [[Float32.of_Z_pow2 1 64]] [[S754_zero false]]
                (Float32.of_Z_pow2 1 (-1)) 10
  = Some [[S754_nan]].
Proof. vm_compute. reflexivity. Qed.

End Binary32Model.

(** C4, as stated, fails in the arithmetic of the code: in binary32, for
    the finite points [2^64] and [0], the squared distance overflows, the
    kernel entry is 0, their product is NaN and so is the returned scalar,
    which is not at least 0. *)
Lemma float32_loss_not_nonneg :
  ~ (exists exp_finite : Float32.float32 -> Float32.float32,
       forall (m n d : nat) (X Y : matrix Float32.float32)
              (epsilon : Float32.float32) (L : Z) (r : matrix Float32.float32),
         rect m d X -> rect n d Y -> (1 <= m)%nat -> (1 <= n)%nat ->
         Float32.all_finite X = true -> Float32.all_finite Y = true ->
         SFltb (S754_zero false) epsilon = true -> (0 <= L)%Z ->
         sinkhorn_loss (H := Float32.float32_scalar exp_finite) X Y epsilon L
         = Some r ->
         exists s, r = [[s]] /\ Float32.nonneg s = true).
Proof.
  intros [exp_finite Hall].
  destruct (Hall 1%nat 1%nat 1%nat
                 [[Float32.of_Z_pow2 1 64]] [[S754_zero false]]
                 (Float32.of_Z_pow2 1 (-1)) 10%Z [[S754_nan]])
    as [s [Hs Hpos]].
  - split; [reflexivity | repeat constructor].
  - split; [reflexivity | repeat constructor].
  - lia.
  - lia.
  - reflexivity.
  - reflexivity.
  - reflexivity.
  - lia.
  - apply float32_loss_nan.
  - injection Hs as <-. discriminate Hpos.
Qed.

